(** * Extractive question answering with BART: the script [transformer_qa.py]

    A shallow embedding of [itk_transformer_nlp/transformer_qa.py] and the
    properties of its span extraction, text cleaning, tokenization and
    driver loop.

    The pretrained model, the tokenizer's vocabulary, [datasets] and the
    [torch] data loading are libraries the script calls.  The tokenizer and
    the model are taken as values (records of functions); the few [torch],
    [datasets], [re] and [str] operations the script applies are written out
    with the behaviour their documentation gives, errors included. *)

From Stdlib Require Import List Bool Arith ZArith Lia Ascii String.
Import ListNotations.

Set Implicit Arguments.

Local Open Scope string_scope.
Local Open Scope list_scope.
Local Open Scope nat_scope.

(** ** Python exceptions and the error monad *)

(** What a [ValueError] was raised for. *)
Inductive value_error : Type :=
| InvalidTextColumnNames (names : list string)  (* tokenize_dataset, line 102 *)
| EmptySeparator                                (* str.split with an empty separator *)
| BatchSizeNotPositive (batch_size : Z)         (* torch DataLoader / BatchSampler *)
| ColumnsNotInDataset (cols : list string)      (* Dataset.set_format *)
| NotPositive (input_int : Z)                    (* check_positive_int, line 53 *)
| TokenizerValueError (msg : string).           (* raised inside the tokenizer *)

Inductive exn : Type :=
| IndexError (msg : string)
| RuntimeError (msg : string)
| KeyError (key : string)
| ValueError (why : value_error)
| OtherError (msg : string).

Definition is_ValueError (e : exn) : bool :=
  match e with ValueError _ => true | _ => false end.

Inductive result (A : Type) : Type :=
| Ok (a : A)
| Raise (e : exn).

Arguments Ok {A} a.
Arguments Raise {A} e.

Definition bind {A B : Type} (r : result A) (k : A -> result B) : result B :=
  match r with
  | Ok a => k a
  | Raise e => Raise e
  end.

Notation "x <- r ;; k" := (bind r (fun x => k))
  (at level 61, r at next level, right associativity).

(** ** Tensors of rank two

    A tensor of shape [(nrows, ncols)] with its indexing function.  Either
    dimension may be zero.  Token ids are [int64] values and are embedded as
    mathematical integers; the script does no arithmetic on them. *)

Record Tensor (A : Type) : Type := mkTensor {
  nrows : nat;
  ncols : nat;
  entry : nat -> nat -> A
}.

Definition shape {A : Type} (t : Tensor A) : nat * nat := (nrows t, ncols t).

(** The nested-list view, as [tensor.tolist()] gives it. *)
Definition row_list {A : Type} (t : Tensor A) (b : nat) : list A :=
  map (entry t b) (seq 0 (ncols t)).

Definition tolist {A : Type} (t : Tensor A) : list (list A) :=
  map (row_list t) (seq 0 (nrows t)).

(** [torch.tensor(rows)] for rows of one length [n]. *)
Definition tensor_of_rows {A : Type} (d : A) (n : nat) (rows : list (list A)) : Tensor A :=
  mkTensor (List.length rows) n (fun b i => nth i (nth b rows []) d).

(** Scores are floating-point numbers; the extraction only compares them.
    [score_gt x y] is the test by which [argmax] prefers [x] to the value
    [y] it holds. *)
Class Score (F : Type) : Type := score_gt : F -> F -> bool.

#[export] Instance Score_Z : Score Z := Z.gtb.

Section Torch.

Context {F : Type} `{Score F}.

(** Scan of [n] entries from index [j]; [best] is the index held so far.
    A later entry replaces it only when strictly preferred, so the first
    maximal index is returned. *)
Fixpoint argmax_from (row : nat -> F) (best j n : nat) : nat :=
  match n with
  | O => best
  | S n' =>
      argmax_from row (if score_gt (row j) (row best) then j else best) (S j) n'
  end.

(** [argmax] of row [b] of a tensor whose rows are not empty. *)
Definition argmax (t : Tensor F) (b : nat) : nat :=
  argmax_from (entry t b) 0 1 (ncols t - 1).

(** [torch.argmax(t, dim=-1, keepdim=True)]: shape [(nrows, 1)]; a
    reduction over a dimension of size zero raises [IndexError]. *)
Definition torch_argmax (t : Tensor F) : result (Tensor nat) :=
  if ncols t =? 0
  then Raise (IndexError "argmax(): Expected reduction dim -1 to have non-zero size.")
  else Ok (mkTensor (nrows t) 1 (fun b _ => argmax t b)).

End Torch.

(** [torch.arange(n).repeat(m, 1)]: shape [(m, n)], entry [(b, i)] is [i]. *)
Definition torch_arange (n : nat) : Tensor nat := mkTensor 1 n (fun _ i => i).

Definition torch_repeat_rows {A : Type} (t : Tensor A) (m : nat) : Tensor A :=
  mkTensor (m * nrows t) (ncols t) (fun b i => entry t (b mod nrows t) i).

(** Broadcasting of one dimension: equal sizes, or one of them is 1. *)
Definition broadcast_dim (a b : nat) : result nat :=
  if a =? b then Ok a
  else if a =? 1 then Ok b
  else if b =? 1 then Ok a
  else Raise (RuntimeError "The size of tensor a must match the size of tensor b").

(** Index into a dimension of size [d] of an operand that was broadcast. *)
Definition broadcast_index (d i : nat) : nat := if d =? 1 then 0 else i.

Definition broadcast_entry {A : Type} (t : Tensor A) (b i : nat) : A :=
  entry t (broadcast_index (nrows t) b) (broadcast_index (ncols t) i).

(** An elementwise binary operation on two tensors. *)
Definition torch_map2 {A B C : Type} (op : A -> B -> C)
    (x : Tensor A) (y : Tensor B) : result (Tensor C) :=
  r <- broadcast_dim (nrows x) (nrows y) ;;
  c <- broadcast_dim (ncols x) (ncols y) ;;
  Ok (mkTensor r c (fun b i => op (broadcast_entry x b i) (broadcast_entry y b i))).

Definition torch_le : Tensor nat -> Tensor nat -> result (Tensor bool) :=
  torch_map2 Nat.leb.

Definition torch_logical_and : Tensor bool -> Tensor bool -> result (Tensor bool) :=
  torch_map2 andb.

(** [torch.where(cond, x, y)] with two scalars. *)
Definition torch_where_scalars {A : Type} (cond : Tensor bool) (x y : A) : Tensor A :=
  mkTensor (nrows cond) (ncols cond) (fun b i => if entry cond b i then x else y).

(** The values of [int64]. *)
Definition int64_min : Z := (-9223372036854775808)%Z.
Definition int64_max : Z := 9223372036854775807%Z.

Definition is_int64 (y : Z) : bool := (int64_min <=? y)%Z && (y <=? int64_max)%Z.

(** A Python [int] given as the scalar operand beside an [int64] tensor.
    It is converted when the call is made: a value that does not fit
    [int64] raises, [RuntimeError] when it still fits an unsigned 64-bit
    scalar and [OverflowError] beyond. *)
Definition int64_scalar (y : Z) : result Z :=
  if is_int64 y then Ok y
  else if (0 <=? y)%Z && (y <=? 18446744073709551615)%Z
  then Raise (RuntimeError "value cannot be converted to type int64_t without overflow")
  else Raise (OtherError "OverflowError: Python int does not fit a 64-bit scalar").

(** [torch.where(cond, t, y)] with an [int64] tensor and a scalar: the
    scalar is converted first, then the condition and the tensor are
    broadcast. *)
Definition torch_where (cond : Tensor bool) (t : Tensor Z) (y : Z)
    : result (Tensor Z) :=
  other <- int64_scalar y ;;
  torch_map2 (fun (c : bool) (v : Z) => if c then v else other) cond t.

(** ** [extract_answer] (lines 116-143) *)

Section ExtractAnswer.

Context {F : Type} `{Score F}.

(** Lines 136-142: the boolean mask of the answer span. *)
Definition answer_mask (input_ids : Tensor Z) (start_scores end_scores : Tensor F)
    : result (Tensor bool) :=
  let '(batch_size, seq_length) := shape input_ids in
  answer_start <- torch_argmax start_scores ;;
  answer_end <- torch_argmax end_scores ;;
  let mask := torch_repeat_rows (torch_arange seq_length) batch_size in
  below <- torch_le answer_start mask ;;
  above <- torch_le mask answer_end ;;
  both <- torch_logical_and below above ;;
  Ok (torch_where_scalars both true false).

Definition extract_answer (input_ids : Tensor Z) (start_scores end_scores : Tensor F)
    (pad_token_id : Z) : result (Tensor Z) :=
  mask <- answer_mask input_ids start_scores end_scores ;;
  torch_where mask input_ids pad_token_id.

(** Position [i] of row [b] lies in the predicted span. *)
Definition in_span (start_scores end_scores : Tensor F) (b i : nat) : bool :=
  (argmax start_scores b <=? i) && (i <=? argmax end_scores b).

(** The three tensors have one shape, as the docstring asks. *)
Definition same_shape (input_ids : Tensor Z) (start_scores end_scores : Tensor F) : Prop :=
  shape start_scores = shape input_ids /\ shape end_scores = shape input_ids.

(** The result the script is expected to give: a tensor of the input's
    shape that keeps the ids of the span and pads everything else. *)
Definition span_masked (input_ids : Tensor Z) (start_scores end_scores : Tensor F)
    (pad_token_id : Z) (out : Tensor Z) : Prop :=
  shape out = shape input_ids /\
  forall b i, b < nrows input_ids -> i < ncols input_ids ->
    entry out b i =
      if in_span start_scores end_scores b i then entry input_ids b i else pad_token_id.

End ExtractAnswer.

(** ** Python strings

    A [str] is embedded as a [string]; its characters stand for the code
    points below 256. *)

(** [str.isspace] on one character. *)
Definition is_space (c : ascii) : bool :=
  let n := nat_of_ascii c in
  ((9 <=? n) && (n <=? 13)) || ((28 <=? n) && (n <=? 32)) || (n =? 133) || (n =? 160).

Definition is_empty (s : string) : bool :=
  match s with EmptyString => true | String _ _ => false end.

Fixpoint lstrip (s : string) : string :=
  match s with
  | EmptyString => EmptyString
  | String c s' => if is_space c then lstrip s' else s
  end.

Fixpoint rstrip (s : string) : string :=
  match s with
  | EmptyString => EmptyString
  | String c s' =>
      let r := rstrip s' in
      if is_space c && is_empty r then EmptyString else String c r
  end.

(** [s.strip()] *)
Definition strip (s : string) : string := rstrip (lstrip s).

(** Adds a character in front of the first piece of a split. *)
Definition push_front (c : ascii) (pieces : list string) : list string :=
  match pieces with
  | [] => [String c EmptyString]
  | p :: ps => String c p :: ps
  end.

(** Left-to-right scan of [s.split(sep)]; [skip] counts the characters of a
    separator found earlier that are still to be passed over. *)
Fixpoint split_scan (sep : string) (skip : nat) (s : string) : list string :=
  match s with
  | EmptyString => [EmptyString]
  | String c s' =>
      match skip with
      | S k => split_scan sep k s'
      | O =>
          if String.prefix sep s
          then EmptyString :: split_scan sep (String.length sep - 1) s'
          else push_front c (split_scan sep 0 s')
      end
  end.

(** [s.split(sep)]; an empty separator raises [ValueError]. *)
Definition str_split (s sep : string) : result (list string) :=
  if is_empty sep then Raise (ValueError EmptySeparator)
  else Ok (split_scan sep 0 s).

(** [s] occurs in [t] as a substring. *)
Fixpoint occurs_in (s t : string) : bool :=
  String.prefix s t ||
  match t with
  | EmptyString => false
  | String _ t' => occurs_in s t'
  end.

(** ** Regular expressions: alternations of literal strings

    [re.compile("|".join(tokens))] is read as the alternation of the
    branches between the bars, every other character taken literally.  This
    is Python's reading whenever the tokens hold no other regex
    metacharacter, as for BART's [<s>], [<pad>] and [</s>]. *)

Definition Pattern : Type := list string.

Definition bar : ascii := "|"%char.

(** The branches of a pattern text. *)
Fixpoint re_compile (text : string) : Pattern :=
  match text with
  | EmptyString => [EmptyString]
  | String c text' =>
      if Ascii.eqb c bar then EmptyString :: re_compile text'
      else push_front c (re_compile text')
  end.

(** [c] is a regex metacharacter. *)
Definition is_meta (c : ascii) : bool :=
  existsb (Ascii.eqb c)
    (list_ascii_of_string ".^$*+?{}[]\|()").

(** No character of [s] is a regex metacharacter. *)
Fixpoint plain_text (s : string) : bool :=
  match s with
  | EmptyString => true
  | String c s' => negb (is_meta c) && plain_text s'
  end.

(** The branch that matches at the head of [s] and deletes something: the
    first one, in the order of the alternation, that is not empty and is a
    prefix of [s].  (An empty branch matches without deleting; the search
    then goes on at the same position for a match that advances.) *)
Definition match_here (pattern : Pattern) (s : string) : option string :=
  find (fun branch => negb (is_empty branch) && String.prefix branch s) pattern.

(** Left-to-right scan of [pattern.sub("", s)]; [skip] counts the characters
    of the current match still to be deleted. *)
Fixpoint sub_scan (pattern : Pattern) (skip : nat) (s : string) : string :=
  match s with
  | EmptyString => EmptyString
  | String c s' =>
      match skip with
      | S k => sub_scan pattern k s'
      | O =>
          match match_here pattern s with
          | Some branch => sub_scan pattern (String.length branch - 1) s'
          | None => String c (sub_scan pattern 0 s')
          end
      end
  end.

(** [pattern.sub("", s)] *)
Definition pattern_sub_empty (pattern : Pattern) (s : string) : string :=
  sub_scan pattern 0 s.

(** ** The tokenizer *)

(** What a tokenizer call returns: column name to one id sequence per
    example. *)
Definition BatchEncoding : Type := list (string * list (list Z)).

(** A value of a dataset column. *)
Inductive cell : Type :=
| Text (s : string)
| Ids (l : list Z)
| Null.

(** A positional argument of a tokenizer call: one text, or the values of
    a column for a batch of examples. *)
Inductive tok_arg : Type :=
| OneText (s : string)
| Column (values : list cell).

(** Keyword arguments of the tokenizer calls the script makes. *)
Record tok_kwargs : Type := {
  padding : bool;
  truncation : bool
}.

(** The exceptions of a tokenizer call. *)
Inductive tok_error : Type :=
| TokValueError (msg : string)
| TokOtherError (msg : string).

Definition exn_of_tok_error (e : tok_error) : exn :=
  match e with
  | TokValueError msg => ValueError (TokenizerValueError msg)
  | TokOtherError msg => OtherError msg
  end.

Record Tokenizer : Type := {
  cls_token : string;
  pad_token : string;
  sep_token : string;
  pad_token_id : Z;
  (** the attribute line 104 assigns *)
  model_max_length : option Z;
  (** [tokenizer.decode] of one id sequence, special tokens kept *)
  decode : list Z -> string;
  (** [tokenizer(...)] under a given [model_max_length] *)
  encode : option Z -> list tok_arg -> tok_kwargs -> tok_error + BatchEncoding
}.

Definition tokenizer_call (tokenizer : Tokenizer) (args : list tok_arg)
    (kwargs : tok_kwargs) : result BatchEncoding :=
  match encode tokenizer (model_max_length tokenizer) args kwargs with
  | inl e => Raise (exn_of_tok_error e)
  | inr enc => Ok enc
  end.

Definition set_model_max_length (tokenizer : Tokenizer) (v : option Z) : Tokenizer :=
  {| cls_token := cls_token tokenizer;
     pad_token := pad_token tokenizer;
     sep_token := sep_token tokenizer;
     pad_token_id := pad_token_id tokenizer;
     model_max_length := v;
     decode := decode tokenizer;
     encode := encode tokenizer |}.

(** [tokenizer.batch_decode(input_ids)]: the text of every row.  The ids
    are handed over as nested lists, and a list without a nested list is
    read as one sequence: a batch without rows is decoded as the empty
    sequence, to one text. *)
Definition batch_decode (tokenizer : Tokenizer) (input_ids : Tensor Z) : list string :=
  match tolist input_ids with
  | [] => [decode tokenizer []]
  | row :: others => map (decode tokenizer) (row :: others)
  end.

(** Runs [f] over a list, stopping at the first exception. *)
Fixpoint mapM {A B : Type} (f : A -> result B) (l : list A) : result (list B) :=
  match l with
  | [] => Ok []
  | a :: l' => b <- f a ;; bs <- mapM f l' ;; Ok (b :: bs)
  end.

(** ** [decode_bart_input] (lines 146-158) *)

Definition decode_bart_input (input_ids : Tensor Z) (tokenizer : Tokenizer)
    : result (list (list string)) :=
  let sep := sep_token tokenizer in
  let outputs := batch_decode tokenizer input_ids in
  mapM (fun seq => str_split seq sep) outputs.

(** ** [clean_decoded_batch] (lines 161-179) *)

Definition clean_subseq (pattern : Pattern) (subseq : string) : string :=
  strip (pattern_sub_empty pattern subseq).

Definition clean_seq (pattern : Pattern) (seq : list string) : list string :=
  filter (fun cleaned_subseq => negb (is_empty cleaned_subseq))
         (map (clean_subseq pattern) seq).

Definition clean_decoded_batch (decoded_batch : list (list string)) (pattern : Pattern)
    : list (list string) :=
  map (clean_seq pattern) decoded_batch.

(** ** Occurrences of the special tokens *)

Definition special_tokens (tokenizer : Tokenizer) : list string :=
  [cls_token tokenizer; pad_token tokenizer; sep_token tokenizer].

(** No string of the batch holds one of the (non-empty) tokens. *)
Definition free_of_tokens (tokens : list string) (batch : list (list string)) : Prop :=
  forall seq s token,
    In seq batch -> In s seq -> In token tokens -> token <> EmptyString ->
    occurs_in token s = false.

(** [u] is a beginning of [t] that is not empty and shorter than [t]. *)
Definition proper_prefix (u t : string) : bool :=
  negb (is_empty u) && String.prefix u t && (String.length u <? String.length t).

(** In [s] a proper beginning of [token] stands directly before an
    occurrence of one of the (non-empty) tokens: once that occurrence is
    deleted, the beginning and what follows are joined. *)
Definition joined_by_removal (tokens : list string) (token s : string) : Prop :=
  exists u m,
    proper_prefix u token = true /\ In m tokens /\ m <> EmptyString /\
    occurs_in (u ++ m) s = true.

(** The same as a test: some proper beginning of [token], followed by
    some non-empty token, occurs in [s]. *)
Definition joins (tokens : list string) (token s : string) : bool :=
  existsb (fun n =>
             existsb (fun m => negb (is_empty m) &&
                               occurs_in (substring 0 (S n) token ++ m) s)
                     tokens)
          (seq 0 (String.length token - 1)).

(** [c] is the first character of a branch of the pattern. *)
Definition opens_branch (pattern : Pattern) (c : ascii) : bool :=
  existsb (fun branch =>
             match branch with
             | EmptyString => false
             | String c' _ => Ascii.eqb c c'
             end) pattern.

(** No character of [s] is the first character of a branch. *)
Fixpoint no_opener (pattern : Pattern) (s : string) : bool :=
  match s with
  | EmptyString => true
  | String c s' => negb (opens_branch pattern c) && no_opener pattern s'
  end.

(** Every character of [s] that is the first character of a branch starts
    an occurrence of a branch in [s]. *)
Fixpoint openers_matched (pattern : Pattern) (s : string) : bool :=
  match s with
  | EmptyString => true
  | String c s' =>
      (negb (opens_branch pattern c) ||
       match match_here pattern s with Some _ => true | None => false end)
      && openers_matched pattern s'
  end.

(** ** Datasets and data loaders *)

Fixpoint lookup {A : Type} (key : string) (d : list (string * A)) : option A :=
  match d with
  | [] => None
  | (k, v) :: d' => if String.eqb k key then Some v else lookup key d'
  end.

Definition is_nil {A : Type} (l : list A) : bool :=
  match l with [] => true | _ :: _ => false end.

Definition keys {A : Type} (d : list (string * A)) : list string := map fst d.

Definition mem (key : string) (l : list string) : bool := existsb (String.eqb key) l.

(** One example: column name to value. *)
Definition Row : Type := list (string * cell).

(** A [datasets.Dataset]: its column names, its examples and the columns
    [set_format(type="torch", ...)] selected, if any. *)
Record Dataset : Type := {
  features : list string;
  rows : list Row;
  format_columns : option (list string)
}.

(** Consecutive groups of [n] elements, the last one possibly shorter. *)
Fixpoint chunks_fuel {A : Type} (fuel n : nat) (l : list A) : list (list A) :=
  match fuel with
  | O => []
  | S fuel' =>
      match l with
      | [] => []
      | _ :: _ => firstn n l :: chunks_fuel fuel' n (skipn n l)
      end
  end.

Definition chunks {A : Type} (n : nat) (l : list A) : list (list A) :=
  chunks_fuel (List.length l) n l.

(** The sizes of consecutive groups of [n]: every group but the last has
    [n] elements, the last has between 1 and [n]. *)
Inductive group_sizes (n : nat) : list nat -> Prop :=
| group_sizes_nil : group_sizes n []
| group_sizes_last (k : nat) : 0 < k <= n -> group_sizes n [k]
| group_sizes_cons (sizes : list nat) :
    sizes <> [] -> group_sizes n sizes -> group_sizes n (n :: sizes).

(** The batches [Dataset.map(batched=True, batch_size=...)] and a sequential
    sampler cut the examples into.  [Dataset.map] takes the whole dataset
    as one batch when [batch_size <= 0]. *)
Definition map_batches {A : Type} (batch_size : Z) (l : list A) : list (list A) :=
  if (batch_size <=? 0)%Z
  then match l with [] => [] | _ :: _ => [l] end
  else chunks (Z.to_nat batch_size) l.

(** [batch[name]] for the batch of examples handed to a mapped function. *)
Definition column_values (dataset_features : list string) (batch : list Row)
    (name : string) : result (list cell) :=
  if mem name dataset_features
  then Ok (map (fun r => match lookup name r with Some v => v | None => Null end) batch)
  else Raise (KeyError name).

(** Row [k] of what the mapped function returned. *)
Definition encoding_row (enc : BatchEncoding) (k : nat) : Row :=
  map (fun '(name, seqs) => (name, Ids (nth k seqs []))) enc.

Definition encoding_size (enc : BatchEncoding) (fallback : nat) : nat :=
  match enc with
  | [] => fallback
  | (_, seqs) :: _ => List.length seqs
  end.

(** The examples written for one batch: the kept columns of the input
    updated with the columns the function returned. *)
Definition merge_batch (kept : list string) (batch : list Row) (enc : BatchEncoding)
    : result (list Row) :=
  let n := encoding_size enc (List.length batch) in
  if negb (forallb (fun '(_, seqs) => List.length seqs =? n) enc)
  then Raise (OtherError "ArrowInvalid: columns of unequal length")
  else if negb (is_nil kept) && negb (n =? List.length batch)
  then Raise (OtherError "ArrowInvalid: columns of unequal length")
  else
    Ok (map (fun k =>
               filter (fun '(name, _) => mem name kept && negb (mem name (keys enc)))
                      (nth k batch [])
               ++ encoding_row enc k)
            (seq 0 n)).

(** [dataset.map(function, batched=True, batch_size=..., remove_columns=...)]:
    the dataset the call returns.  The dataset it is called on is not
    changed; see [map_returns_self] for when the two are one object. *)
Definition Dataset_map (dataset : Dataset)
    (function : list Row -> result BatchEncoding)
    (batch_size : Z) (remove_columns : option (list string)) : result Dataset :=
  let kept :=
    match remove_columns with
    | Some cols => filter (fun name => negb (mem name cols)) (features dataset)
    | None => features dataset
    end in
  written <- mapM (fun batch => enc <- function batch ;; merge_batch kept batch enc)
                  (map_batches batch_size (rows dataset)) ;;
  let new_rows := List.concat written in
  let new_features :=
    match new_rows with
    | [] => kept
    | r :: _ => keys r
    end in
  if forallb (fun r => if list_eq_dec string_dec (keys r) new_features then true else false)
             new_rows
  then Ok {| features := new_features; rows := new_rows;
             format_columns := format_columns dataset |}
  else Raise (OtherError "ArrowInvalid: schema mismatch between batches").

(** On a dataset without examples [map] has nothing to do: it removes the
    columns it is asked to remove, and with none to remove it returns the
    very dataset it was called on, not a new one. *)
Definition map_returns_self (dataset : Dataset) (remove_columns : option (list string))
    : bool :=
  is_nil (rows dataset) &&
  match remove_columns with
  | Some (_ :: _) => false
  | _ => true
  end.

(** [dataset.set_format(type="torch", columns=...)]: the dataset after the
    call, which changes it in place. *)
Definition Dataset_set_format (dataset : Dataset) (columns : list string) : result Dataset :=
  if forallb (fun name => mem name (features dataset)) columns
  then Ok {| features := features dataset; rows := rows dataset;
             format_columns := Some columns |}
  else Raise (ValueError (ColumnsNotInDataset columns)).

(** A [torch.utils.data.DataLoader] over a dataset, with the default
    sequential sampler and collation. *)
Record DataLoader : Type := {
  dl_dataset : Dataset;
  dl_batch_size : Z
}.

(** [DataLoader(dataset, batch_size=...)]; the batch sampler refuses a
    batch size that is not positive. *)
Definition DataLoader_new (dataset : Dataset) (batch_size : Z) : result DataLoader :=
  if (batch_size <=? 0)%Z then Raise (ValueError (BatchSizeNotPositive batch_size))
  else Ok {| dl_dataset := dataset; dl_batch_size := batch_size |}.

(** The value of one key of a collated mini-batch. *)
Inductive batch_value : Type :=
| Collated (t : Tensor Z)
| Uncollated (values : list cell).

Definition Batch : Type := list (string * batch_value).

Fixpoint all_ids (values : list cell) : option (list (list Z)) :=
  match values with
  | [] => Some []
  | Ids l :: values' => option_map (cons l) (all_ids values')
  | _ :: _ => None
  end.

(** [torch.stack] of the rows' tensors; rows of unequal size raise. *)
Definition collate_column (values : list cell) : result batch_value :=
  match all_ids values with
  | Some seqs =>
      let n := List.length (hd [] seqs) in
      if forallb (fun l => List.length l =? n) seqs
      then Ok (Collated (tensor_of_rows 0%Z n seqs))
      else Raise (RuntimeError "stack expects each tensor to be equal size")
  | None => Ok (Uncollated values)
  end.

(** The example groups a data loader draws, in order.  [DataLoader_new]
    makes the batch size positive. *)
Definition DataLoader_groups (data_loader : DataLoader) : list (list Row) :=
  chunks (Z.to_nat (dl_batch_size data_loader)) (rows (dl_dataset data_loader)).

Definition collate (columns : list string) (group : list Row) : result Batch :=
  mapM (fun name =>
          values <- mapM (fun r => match lookup name r with
                                   | Some v => Ok v
                                   | None => Raise (KeyError name)
                                   end) group ;;
          v <- collate_column values ;;
          Ok (name, v))
       columns.

(** Without the torch format the values of a group stay Python lists. *)
Definition collate_plain (columns : list string) (group : list Row) : result Batch :=
  mapM (fun name =>
          values <- mapM (fun r => match lookup name r with
                                   | Some v => Ok v
                                   | None => Raise (KeyError name)
                                   end) group ;;
          Ok (name, Uncollated values))
       columns.

(** What [for batch in data_loader] goes through: a batch, or the exception
    its collation raises. *)
Definition DataLoader_iter (data_loader : DataLoader) : list (result Batch) :=
  let dataset := dl_dataset data_loader in
  match format_columns dataset with
  | Some columns => map (collate columns) (DataLoader_groups data_loader)
  | None => map (collate_plain (features dataset)) (DataLoader_groups data_loader)
  end.

(** ** [get_predictions] (lines 182-212) *)

(** The fine-tuned model: a mini-batch to start and end logits. *)
Definition Model (F : Type) : Type := Batch -> result (Tensor F * Tensor F).

(** What a generator did: the values it yielded, and the exception that
    ended it, if one did. *)
Record Generated (A : Type) : Type := {
  yielded : list A;
  raised : option exn
}.

Definition gen_cons {A : Type} (items : list A) (g : Generated A) : Generated A :=
  {| yielded := items ++ yielded g; raised := raised g |}.

Definition batch_getitem (batch : Batch) (name : string) : result (Tensor Z) :=
  match lookup name batch with
  | None => Raise (KeyError name)
  | Some (Collated t) => Ok t
  | Some (Uncollated _) => Raise (OtherError "AttributeError: 'list' object has no attribute 'shape'")
  end.

(** Lines 202-203: the pattern of the three special tokens. *)
Definition cleaning_pattern (tokenizer : Tokenizer) : Pattern :=
  re_compile (String.concat "|"
                [cls_token tokenizer; pad_token tokenizer; sep_token tokenizer]).

Section GetPredictions.

Context {F : Type} `{Score F}.

(** The body of the loop for one mini-batch: the tuples it yields. *)
Definition predict_batch (model : Model F) (tokenizer : Tokenizer)
    (input_ids_name : string) (pad_id : Z) (cleaning_pattern : Pattern)
    (batch : Batch) : result (list (list string)) :=
  logits <- model batch ;;
  let '(start_logits, end_logits) := logits in
  input_ids <- batch_getitem batch input_ids_name ;;
  answers <- extract_answer input_ids start_logits end_logits pad_id ;;
  raw_inputs <- decode_bart_input input_ids tokenizer ;;
  let decoded_inputs := clean_decoded_batch raw_inputs cleaning_pattern in
  raw_answers <- decode_bart_input answers tokenizer ;;
  let decoded_answers := clean_decoded_batch raw_answers cleaning_pattern in
  Ok (map (fun '(decoded_input, decoded_answer) => decoded_input ++ decoded_answer)
          (combine decoded_inputs decoded_answers)).

Fixpoint predict_loop (step : Batch -> result (list (list string)))
    (batches : list (result Batch)) : Generated (list string) :=
  match batches with
  | [] => {| yielded := []; raised := None |}
  | Raise e :: _ => {| yielded := []; raised := Some e |}
  | Ok batch :: batches' =>
      match step batch with
      | Raise e => {| yielded := []; raised := Some e |}
      | Ok tuples => gen_cons tuples (predict_loop step batches')
      end
  end.

Definition get_predictions (model : Model F) (data_loader : DataLoader)
    (tokenizer : Tokenizer) (input_ids_name : string) : Generated (list string) :=
  let pad_id := pad_token_id tokenizer in
  predict_loop (predict_batch model tokenizer input_ids_name pad_id
                              (cleaning_pattern tokenizer))
               (DataLoader_iter data_loader).

End GetPredictions.

(** *** The model as an object with a state

    Line 205 calls a torch module.  Beside its answer such a
    call may change the internal state of the module (buffers, the state of
    a random generator used by dropout), and a later answer may depend on
    that state.  A [Module] answers a mini-batch from a state [S] and
    leaves a new state; a [Model] above is a module whose answers depend on
    the mini-batch alone. *)

Definition Module (F S : Type) : Type :=
  S -> Batch -> result (Tensor F * Tensor F) * S.

(** A [Model] seen as a module, with any state. *)
Definition module_of {F S : Type} (model : Model F) : Module F S :=
  fun state batch => (model batch, state).

Section GetPredictionsModule.

Context {F S : Type} `{Score F}.

(** The loop of lines 204-212 with the module's state threaded through
    its calls: the tuples yielded, the exception that ended the run if one
    did, and the state the module is left in. *)
Fixpoint predict_loop_from (module : Module F S) (tokenizer : Tokenizer)
    (input_ids_name : string) (pad_id : Z) (cleaning_pattern : Pattern)
    (state : S) (batches : list (result Batch)) : Generated (list string) * S :=
  match batches with
  | [] => ({| yielded := []; raised := None |}, state)
  | Raise e :: _ => ({| yielded := []; raised := Some e |}, state)
  | Ok batch :: batches' =>
      let '(answer, state') := module state batch in
      match predict_batch (fun _ => answer) tokenizer input_ids_name pad_id
                          cleaning_pattern batch with
      | Raise e => ({| yielded := []; raised := Some e |}, state')
      | Ok tuples =>
          let '(rest, final) :=
            predict_loop_from module tokenizer input_ids_name pad_id cleaning_pattern
                              state' batches' in
          (gen_cons tuples rest, final)
      end
  end.

(** [get_predictions] with a module in state [state]. *)
Definition get_predictions_from (module : Module F S) (state : S)
    (data_loader : DataLoader) (tokenizer : Tokenizer) (input_ids_name : string)
    : Generated (list string) * S :=
  predict_loop_from module tokenizer input_ids_name (pad_token_id tokenizer)
                    (cleaning_pattern tokenizer) state (DataLoader_iter data_loader).

End GetPredictionsModule.

(** ** [tokenize_dataset] (lines 73-113) *)

(** The objects of the caller that [tokenize_dataset] is handed and could
    change: the tokenizer and the dataset. *)
Record World : Type := {
  the_tokenizer : Tokenizer;
  the_dataset : Dataset
}.

(** [set(text_col_names) & tokenizer_cols] is not empty. *)
Definition names_clash (text_col_names tokenizer_cols : list string) : bool :=
  existsb (fun name => mem name tokenizer_cols) text_col_names.

Definition no_kwargs : tok_kwargs := {| padding := false; truncation := false |}.

(** [padding=True, truncation=True] *)
Definition batch_kwargs : tok_kwargs := {| padding := true; truncation := true |}.

(** The inner function [tok_func], closed over the tokenizer and the
    column names. *)
Definition tok_func (tokenizer : Tokenizer) (dataset_features text_col_names : list string)
    (example : list Row) : result BatchEncoding :=
  text_cols <- mapM (column_values dataset_features example) text_col_names ;;
  tokenizer_call tokenizer (map Column text_cols) batch_kwargs.

(** The call returns a data loader or raises, and leaves the caller's
    tokenizer and dataset in the state given beside the result.  Line 104
    assigns to the caller's tokenizer.  Line 110 rebinds the local name
    [dataset] to what [map] returns, and line 112 changes that object in
    place: it is the caller's dataset only when [map] returned the dataset
    it was called on. *)
Definition tokenize_dataset (dataset : Dataset) (text_col_names : list string)
    (tokenizer : Tokenizer) (batch_size : Z) (max_seq_length : option Z)
    (remove_old_cols : bool) : result DataLoader * World :=
  let world := {| the_tokenizer := tokenizer; the_dataset := dataset |} in
  match tokenizer_call tokenizer [OneText "Dummy text"] no_kwargs with
  | Raise e => (Raise e, world)
  | Ok dummy =>
      let tokenizer_cols := keys dummy in
      if names_clash text_col_names tokenizer_cols
      then (Raise (ValueError (InvalidTextColumnNames text_col_names)), world)
      else
        let cols_to_remove := if remove_old_cols then Some (features dataset) else None in
        (* tokenizer.model_max_length = max_seq_length *)
        let tokenizer := set_model_max_length tokenizer max_seq_length in
        let dataset_after :=
          if map_returns_self dataset cols_to_remove
          then match Dataset_set_format dataset tokenizer_cols with
               | Ok formatted => formatted
               | Raise _ => dataset
               end
          else dataset in
        let world := {| the_tokenizer := tokenizer; the_dataset := dataset_after |} in
        (mapped <- Dataset_map dataset
                     (tok_func tokenizer (features dataset) text_col_names)
                     batch_size cols_to_remove ;;
         formatted <- Dataset_set_format mapped tokenizer_cols ;;
         DataLoader_new formatted batch_size,
         world)
  end.

(** What the script relies on the tokenizer for.  Every call returns the
    same columns. *)
Definition fixed_columns (tokenizer : Tokenizer) : Prop :=
  forall m m' args args' kw kw' enc enc',
    encode tokenizer m args kw = inr enc ->
    encode tokenizer m' args' kw' = inr enc' ->
    keys enc = keys enc'.

(** A call on a batch returns one sequence per example. *)
Definition one_per_example (tokenizer : Tokenizer) : Prop :=
  forall m cols kw enc name seqs,
    encode tokenizer m (map Column cols) kw = inr enc ->
    In (name, seqs) enc ->
    exists values, hd_error cols = Some values /\
                   List.length seqs = List.length values.



(** ** Command line (lines 34-70) *)

(** A call of [datasets.load_dataset] with the arguments the script can
    give it. *)
Record load_call : Type := {
  lc_path : string;
  lc_data_files : option (list string);
  lc_split : option string;
  lc_cache_dir : option string
}.

(** [load_dataset(path)]: what [argparse] does with the [dataset] argument,
    whose [type] is [load_dataset]. *)
Definition load_dataset (path : string) : load_call :=
  {| lc_path := path; lc_data_files := None; lc_split := None; lc_cache_dir := None |}.

Definition load_jsonl_dataset (dataset_path : string) (cache_dir : option string) : load_call :=
  {| lc_path := "json"; lc_data_files := Some [dataset_path];
     lc_split := Some "train"; lc_cache_dir := cache_dir |}.

(** [check_positive_int] on a value [int()] has read. *)
Definition check_positive_int (input_int : Z) : result Z :=
  if (input_int <=? 0)%Z
  then Raise (ValueError (NotPositive input_int))
  else Ok input_int.

(** [argparse] turns a [ValueError] of a [type] function into a usage error
    and exits. *)
Definition argparse_type {A : Type} (r : result A) : result A :=
  match r with
  | Raise (ValueError _) => Raise (OtherError "SystemExit: invalid argument value")
  | _ => r
  end.

Record Namespace : Type := {
  ns_dataset : load_call;
  ns_text_col_names : list string;
  ns_max_seq_length : Z;
  ns_batch_size : Z
}.

(** [get_qa_args] on a command line already cut into its parts: the
    [dataset] string, the [text_col_names] strings and the two options. *)
Definition get_qa_args (dataset_arg : string) (text_col_args : list string)
    (max_seq_length_arg batch_size_arg : option Z) : result Namespace :=
  let dataset := load_dataset dataset_arg in
  if is_nil text_col_args
  then Raise (OtherError "SystemExit: the following arguments are required: text_col_names")
  else
    max_seq_length <-
      match max_seq_length_arg with
      | Some v => argparse_type (check_positive_int v)
      | None => Ok 256%Z
      end ;;
    batch_size <-
      match batch_size_arg with
      | Some v => argparse_type (check_positive_int v)
      | None => Ok 8%Z
      end ;;
    Ok {| ns_dataset := dataset; ns_text_col_names := text_col_args;
          ns_max_seq_length := max_seq_length; ns_batch_size := batch_size |}.

(** ** A tokenizer with BART's special tokens

    A small character-level stand-in for [BartTokenizer]: ids 0, 1, 2, 3 are
    [<s>], [<pad>], [</s>] and [<unk>], and the id of any other character is
    its code point plus 4.  Like [BartTokenizer] it frames a text as
    [<s> text </s>] and a pair as [<s> text </s></s> text_pair </s>], cuts
    the texts and never the special tokens, and refuses to truncate without
    a [model_max_length].  It serves the concrete runs below. *)

Module BartLike.

Definition bos_id : Z := 0%Z.
Definition pad_id : Z := 1%Z.
Definition eos_id : Z := 2%Z.

Definition token_of_id (id : Z) : string :=
  if (id =? 0)%Z then "<s>"
  else if (id =? 1)%Z then "<pad>"
  else if (id =? 2)%Z then "</s>"
  else if (4 <=? id)%Z && (id <? 260)%Z
       then String (ascii_of_nat (Z.to_nat (id - 4))) EmptyString
  else "<unk>".

Definition decode_ids (ids : list Z) : string :=
  String.concat "" (map token_of_id ids).

Definition ids_of_text (s : string) : list Z :=
  map (fun c => (Z.of_nat (nat_of_ascii c) + 4)%Z) (list_ascii_of_string s).

Definition text_of_cell (c : cell) : tok_error + string :=
  match c with
  | Text s => inr s
  | _ => inl (TokValueError "text input must be of type str")
  end.

(** The ids of a text, without special tokens. *)
Definition text_ids (c : cell) : tok_error + list Z :=
  match text_of_cell c with
  | inl e => inl e
  | inr s => inr (ids_of_text s)
  end.

(** What a limit of [L] tokens leaves for the texts beside [special]
    special tokens.  The special tokens are never cut: a limit below their
    number cuts nothing. *)
Definition budget (limit : option nat) (special : nat) : option nat :=
  match limit with
  | Some L => if L <? special then None else Some (L - special)
  | None => None
  end.

Definition cut (room : option nat) (ids : list Z) : list Z :=
  match room with
  | Some n => firstn n ids
  | None => ids
  end.

(** The lengths two texts of [n1 <= n2] ids are cut to when only [n] ids
    may stay: the longer text is cut first, and both to halves of [n] when
    the shorter one alone is longer than its half. *)
Definition cut_lengths (n n1 n2 : nat) : nat * nat :=
  let longer := if n <? n1 then n1 else Nat.max n1 (n - n1) in
  if n <? n1 + longer then (n / 2, n / 2 + n mod 2) else (n1, longer).

Definition cut_pair (room : option nat) (a b : list Z) : list Z * list Z :=
  match room with
  | None => (a, b)
  | Some n =>
      if List.length a + List.length b <=? n then (a, b)
      else if List.length b <? List.length a
      then let '(kb, ka) := cut_lengths n (List.length b) (List.length a) in
           (firstn ka a, firstn kb b)
      else let '(ka, kb) := cut_lengths n (List.length a) (List.length b) in
           (firstn ka a, firstn kb b)
  end.

(** [<s> text </s>] *)
Definition encode_single (limit : option nat) (c : cell) : tok_error + list Z :=
  match text_ids c with
  | inl e => inl e
  | inr ids => inr (bos_id :: cut (budget limit 2) ids ++ [eos_id])
  end.

(** [<s> text </s></s> text_pair </s>] *)
Definition encode_pair (limit : option nat) (c d : cell) : tok_error + list Z :=
  match text_ids c, text_ids d with
  | inr a, inr b =>
      let '(a', b') := cut_pair (budget limit 4) a b in
      inr (bos_id :: a' ++ [eos_id; eos_id] ++ b' ++ [eos_id])
  | inl e, _ => inl e
  | _, inl e => inl e
  end.

Fixpoint collect {A B : Type} (f : A -> tok_error + B) (l : list A) : tok_error + list B :=
  match l with
  | [] => inr []
  | a :: l' =>
      match f a, collect f l' with
      | inr b, inr bs => inr (b :: bs)
      | inl e, _ => inl e
      | _, inl e => inl e
      end
  end.

(** The id sequences of the examples, truncated to [limit] tokens if one
    is given, before padding. *)
Definition raw_ids (limit : option nat) (args : list tok_arg) : tok_error + list (list Z) :=
  match args with
  | [] => inl (TokValueError "You need to specify either text or text_target.")
  | [OneText s] => collect (encode_single limit) [Text s]
  | [Column values] => collect (encode_single limit) values
  | [Column values; Column pairs] =>
      if List.length values =? List.length pairs
      then collect (fun '(c, d) => encode_pair limit c d) (combine values pairs)
      else inl (TokValueError "batch length of text and text_pair differ")
  | _ => inl (TokOtherError "unsupported arguments")
  end.

Definition longest (seqs : list (list Z)) : nat := list_max (map (@List.length Z) seqs).

Definition pad_ids (n : nat) (ids : list Z) : list Z :=
  ids ++ repeat pad_id (n - List.length ids).

Definition pad_mask (n : nat) (ids : list Z) : list Z :=
  repeat 1%Z (List.length ids) ++ repeat 0%Z (n - List.length ids).

Definition finish (pad : bool) (seqs : list (list Z)) : BatchEncoding :=
  let n := if pad then longest seqs else 0 in
  [("input_ids", map (pad_ids n) seqs); ("attention_mask", map (pad_mask n) seqs)].

(** The limit [truncation=True] asks for: [model_max_length], which must
    be a number. *)
Definition truncation_limit (max_length : option Z) (kwargs : tok_kwargs)
    : tok_error + option nat :=
  if truncation kwargs
  then match max_length with
       | None =>
           inl (TokOtherError
                  "TypeError: '>' not supported between instances of 'NoneType' and 'int'")
       | Some L =>
           if (L <? 0)%Z
           then inl (TokOtherError "OverflowError: can't convert negative int to unsigned")
           else inr (Some (Z.to_nat L))
       end
  else inr None.

Definition call (max_length : option Z) (args : list tok_arg) (kwargs : tok_kwargs)
    : tok_error + BatchEncoding :=
  match truncation_limit max_length kwargs with
  | inl e => inl e
  | inr limit =>
      match raw_ids limit args with
      | inl e => inl e
      | inr seqs => inr (finish (padding kwargs) seqs)
      end
  end.

Definition tokenizer : Tokenizer :=
  {| cls_token := "<s>";
     pad_token := "<pad>";
     sep_token := "</s>";
     pad_token_id := pad_id;
     model_max_length := Some 1024%Z;
     decode := decode_ids;
     encode := call |}.

(** The examples [{"question": q, "context": c}]. *)
Definition qa_dataset (examples : list (string * string)) : Dataset :=
  {| features := ["question"; "context"];
     rows := map (fun '(q, c) => [("question", Text q); ("context", Text c)]) examples;
     format_columns := None |}.

(** A model that puts the highest start score at position [start] and
    the highest end score at position [stop] of every row. *)
Definition peak (rows cols at_ : nat) : Tensor Z :=
  mkTensor rows cols (fun _ i => if i =? at_ then 1%Z else 0%Z).

Definition pointing_model (start stop : nat) : Model Z :=
  fun batch =>
    input_ids <- batch_getitem batch "input_ids" ;;
    Ok (peak (nrows input_ids) (ncols input_ids) start,
        peak (nrows input_ids) (ncols input_ids) stop).

(** The data loader of [main] for the given examples. *)
Definition loader_of (examples : list (string * string)) (batch_size : Z)
    : result DataLoader :=
  fst (tokenize_dataset (qa_dataset examples) ["question"; "context"] tokenizer
                        batch_size (Some 256%Z) true).

End BartLike.

(** ** Classification of the exception of line 102 *)

Definition is_text_columns_error (e : exn) : bool :=
  match e with
  | ValueError (InvalidTextColumnNames _) => true
  | _ => false
  end.

(** [r] does not raise the exception of line 102. *)
Definition not_text_columns_error {A : Type} (r : result A) : Prop :=
  forall e, r = Raise e -> is_text_columns_error e = false.

(** ** Concrete inputs *)

(** A batch of one example with no token, and scores for it. *)
Definition empty_ids : Tensor Z := tensor_of_rows 0%Z 0 [[]].
Definition empty_scores : Tensor Z := tensor_of_rows 0%Z 0 [[]].

(** Two examples of four tokens; in the second the end score peaks before
    the start score. *)
Definition two_ids : Tensor Z := tensor_of_rows 0%Z 4 [[0; 15; 16; 2]; [0; 17; 2; 1]]%Z.
Definition two_starts : Tensor Z := tensor_of_rows 0%Z 4 [[0; 9; 1; 0]; [0; 0; 7; 0]]%Z.
Definition two_ends : Tensor Z := tensor_of_rows 0%Z 4 [[0; 1; 9; 0]; [0; 5; 0; 0]]%Z.


(** A loader of one mini-batch, [<s>W</s></s>A</s>]. *)
Definition one_batch_loader : DataLoader :=
  {| dl_dataset :=
       {| features := ["input_ids"];
          rows := [[("input_ids", Ids [0; 91; 2; 2; 69; 2]%Z)]];
          format_columns := Some ["input_ids"] |};
     dl_batch_size := 8%Z |}.

(** A module that counts its calls and points at token 4 whatever the
    count, and one that points at token 4 on its even calls and at the
    first token on its odd calls. *)
Definition counting_module : Module Z nat :=
  fun calls batch => (BartLike.pointing_model 4 4 batch, S calls).

Definition alternating_module : Module Z nat :=
  fun calls batch =>
    (if Nat.even calls
     then BartLike.pointing_model 4 4 batch
     else BartLike.pointing_model 0 0 batch,
     S calls).

(** A dataset that holds token ids already, but no example. *)
Definition tokenized_no_examples : Dataset :=
  {| features := ["question"; "context"; "input_ids"; "attention_mask"];
     rows := [];
     format_columns := None |}.

Definition three_examples : Dataset :=
  BartLike.qa_dataset [("Who?", "Ann did."); ("Why did he?", "No."); ("Q", "C")].

(** ** Auxiliary notions for the properties of the text functions *)

(** [s] without its first [n] characters. *)
Fixpoint drop_str (n : nat) (s : string) : string :=
  match n, s with
  | O, _ => s
  | S _, EmptyString => EmptyString
  | S n', String _ s' => drop_str n' s'
  end.

(** The last character of [s] is a whitespace. *)
Fixpoint ends_with_space (s : string) : bool :=
  match s with
  | EmptyString => false
  | String c EmptyString => is_space c
  | String _ s' => ends_with_space s'
  end.

Definition starts_with_space (s : string) : bool :=
  match s with
  | EmptyString => false
  | String c _ => is_space c
  end.

(** [s] is not empty and has no whitespace at either end. *)
Definition is_stripped (s : string) : bool :=
  negb (is_empty s) && negb (starts_with_space s) && negb (ends_with_space s).

(** ** [main] (lines 215-226)

    The call of [tokenize_dataset] in [main], from the point where
    [get_qa_args] has returned [args] and [from_pretrained] has given the
    tokenizer; [dataset] stands for the dataset the call is given. *)

Definition main_data_loader (args : Namespace) (dataset : Dataset)
    (tokenizer : Tokenizer) : result DataLoader * World :=
  tokenize_dataset dataset (ns_text_col_names args) tokenizer
                   (ns_batch_size args) (Some (ns_max_seq_length args)) true.

(** [r] raises only exceptions that satisfy [P]. *)
Definition raises_only {A : Type} (P : exn -> Prop) (r : result A) : Prop :=
  forall e, r = Raise e -> P e.

(** [e] is not the data loader's refusal of a batch size. *)
Definition not_batch_size_error (e : exn) : Prop :=
  forall batch_size, e <> ValueError (BatchSizeNotPositive batch_size).

(** The value of an option of the command line, or its default. *)
Definition option_or_default (given : option Z) (default : Z) : Z :=
  match given with
  | Some v => v
  | None => default
  end.

Definition positive_if_given (given : option Z) : Prop :=
  forall v, given = Some v -> (0 < v)%Z.

(** The ids and the mini-batch of [one_batch_loader]. *)
Definition one_batch_ids : Tensor Z := tensor_of_rows 0%Z 6 [[0; 91; 2; 2; 69; 2]]%Z.

Definition one_batch : Batch := [("input_ids", Collated one_batch_ids)].

(** The columns kept by the mapping of [tokenize_dataset]. *)
Definition kept_columns (dataset : Dataset) (remove_old_cols : bool) : list string :=
  match (if remove_old_cols then Some (features dataset) else None) with
  | Some cols => filter (fun name => negb (mem name cols)) (features dataset)
  | None => features dataset
  end.

(** * Properties *)

Unset Implicit Arguments.

(** Case analysis on the test of the outermost conditional of [H]. *)
Ltac case_if H :=
  match type of H with
  | (if ?c then _ else _) = _ => destruct c
  end.

(** ** Span extraction *)

Lemma broadcast_dim_refl (a : nat) : broadcast_dim a a = Ok a.
Proof. unfold broadcast_dim. now rewrite Nat.eqb_refl. Qed.

Lemma broadcast_dim_1_l (n : nat) : broadcast_dim 1 n = Ok n.
Proof.
  unfold broadcast_dim. destruct (1 =? n) eqn:E.
  - apply Nat.eqb_eq in E. now subst.
  - reflexivity.
Qed.

Lemma broadcast_dim_1_r (n : nat) : broadcast_dim n 1 = Ok n.
Proof.
  unfold broadcast_dim. destruct (n =? 1) eqn:E; reflexivity.
Qed.

Lemma broadcast_index_lt (d i : nat) : i < d -> broadcast_index d i = i.
Proof.
  unfold broadcast_index. destruct (d =? 1) eqn:E; [|reflexivity].
  apply Nat.eqb_eq in E. lia.
Qed.

Lemma bind_Ok {A B : Type} (r : result A) (k : A -> result B) (b : B) :
  bind r k = Ok b -> exists a, r = Ok a /\ k a = Ok b.
Proof. destruct r as [a|e]; simpl; [eauto | discriminate]. Qed.

Section ArgmaxFacts.

Context {F : Type} `{Score F}.

(** The scan returns an index it has visited. *)
Lemma argmax_from_bound (row : nat -> F) (n best j : nat) :
  best < j -> argmax_from row best j n < j + n.
Proof.
  revert best j. induction n as [|n IH]; intros best j Hb; simpl.
  - lia.
  - destruct (score_gt (row j) (row best)).
    + specialize (IH j (S j)). lia.
    + specialize (IH best (S j)). lia.
Qed.

Lemma argmax_lt (t : Tensor F) (b : nat) : 0 < ncols t -> argmax t b < ncols t.
Proof.
  intros Hn. unfold argmax.
  pose proof (@argmax_from_bound (entry t b) (ncols t - 1) 0 1). lia.
Qed.

Lemma argmax_le (t : Tensor F) (b : nat) : argmax t b <= ncols t - 1.
Proof.
  unfold argmax.
  pose proof (@argmax_from_bound (entry t b) (ncols t - 1) 0 1). lia.
Qed.

Lemma torch_argmax_nonempty (t : Tensor F) :
  ncols t <> 0 -> torch_argmax t = Ok (mkTensor (nrows t) 1 (fun b _ => argmax t b)).
Proof.
  intros Hn. unfold torch_argmax. apply Nat.eqb_neq in Hn. now rewrite Hn.
Qed.

Lemma torch_argmax_Ok (t : Tensor F) (a : Tensor nat) :
  torch_argmax t = Ok a ->
  ncols t <> 0 /\ a = mkTensor (nrows t) 1 (fun b _ => argmax t b).
Proof.
  unfold torch_argmax. destruct (ncols t =? 0) eqn:E; [discriminate|].
  apply Nat.eqb_neq in E. intros [= <-]. auto.
Qed.

(** Whenever the mask is computed, its width is the input's and each of
    its rows is the indicator of an interval of positions. *)
Lemma answer_mask_rows (input_ids : Tensor Z) (start_scores end_scores : Tensor F)
    (m : Tensor bool) :
  answer_mask input_ids start_scores end_scores = Ok m ->
  ncols m = ncols input_ids /\
  forall b, exists lo hi, forall i, i < ncols m ->
    entry m b i = (lo <=? i) && (i <=? hi).
Proof.
  unfold answer_mask, shape.
  intros Hm.
  apply bind_Ok in Hm as (a_s & Hs & Hm). apply torch_argmax_Ok in Hs as [_ ->].
  apply bind_Ok in Hm as (a_e & He & Hm). apply torch_argmax_Ok in He as [_ ->].
  unfold torch_le, torch_logical_and, torch_map2 in Hm. cbn [nrows ncols torch_repeat_rows torch_arange] in Hm.
  rewrite broadcast_dim_1_l, broadcast_dim_1_r in Hm.
  apply bind_Ok in Hm as (below & Hbelow & Hm).
  apply bind_Ok in Hbelow as (r1 & Hr1 & Hbelow). cbn in Hbelow. injection Hbelow as <-.
  apply bind_Ok in Hm as (above & Habove & Hm).
  apply bind_Ok in Habove as (r2 & Hr2 & Habove). cbn in Habove. injection Habove as <-.
  apply bind_Ok in Hm as (both & Hboth & Hm).
  cbn [nrows ncols] in Hboth. rewrite broadcast_dim_refl in Hboth.
  apply bind_Ok in Hboth as (r3 & Hr3 & Hboth). cbn in Hboth. injection Hboth as <-.
  injection Hm as <-. cbn [ncols torch_where_scalars nrows entry].
  split; [reflexivity|].
  intros b.
  exists (argmax start_scores (broadcast_index (nrows start_scores) (broadcast_index r1 b))),
         (argmax end_scores (broadcast_index (nrows end_scores) (broadcast_index r2 b))).
  intros i Hi. unfold broadcast_entry. cbn [nrows ncols entry].
  repeat rewrite (broadcast_index_lt _ _ Hi).
  destruct (_ && _); reflexivity.
Qed.

End ArgmaxFacts.

(** On integer scores [argmax] is the first index of a greatest entry of
    the row. *)
Lemma argmax_from_Z_greatest (row : nat -> Z) (n best j : nat) :
  best < j ->
  (forall i, i < j -> (row i <= row best)%Z) ->
  (forall i, i < best -> (row i < row best)%Z) ->
  let r := argmax_from row best j n in
  (forall i, i < j + n -> (row i <= row r)%Z) /\
  (forall i, i < r -> (row i < row r)%Z).
Proof.
  revert best j. induction n as [|n IH]; intros best j Hb Hmax Hfirst; cbn [argmax_from].
  - cbv zeta. rewrite Nat.add_0_r. auto.
  - unfold score_gt, Score_Z. destruct (Z.gtb_spec (row j) (row best)) as [Hgt|Hle].
    + replace (j + S n) with (S j + n) by lia.
      apply IH; [lia| |].
      * intros i Hi. destruct (Nat.eq_dec i j) as [->|Hne]; [lia|].
        specialize (Hmax i). lia.
      * intros i Hi. specialize (Hmax i). lia.
    + replace (j + S n) with (S j + n) by lia.
      apply IH; [lia| |exact Hfirst].
      intros i Hi. destruct (Nat.eq_dec i j) as [->|Hne]; [lia|].
      apply Hmax. lia.
Qed.

Lemma argmax_Z_greatest (t : Tensor Z) (b : nat) :
  0 < ncols t ->
  (forall i, i < ncols t -> (entry t b i <= entry t b (argmax t b))%Z) /\
  (forall i, i < argmax t b -> (entry t b i < entry t b (argmax t b))%Z).
Proof.
  intros Hn. unfold argmax.
  pose proof (argmax_from_Z_greatest (entry t b) (ncols t - 1) 0 1) as Hg.
  cbv zeta in Hg. replace (1 + (ncols t - 1)) with (ncols t) in Hg by lia.
  apply Hg; [lia| |].
  - intros i Hi. replace i with 0 by lia. lia.
  - intros i Hi. lia.
Qed.

Lemma int64_scalar_Ok (y v : Z) :
  int64_scalar y = Ok v <-> (is_int64 y = true /\ v = y).
Proof.
  unfold int64_scalar. destruct (is_int64 y).
  - split; [intros [= <-]; auto|intros [_ ->]; reflexivity].
  - destruct (_ && _); split; try discriminate; intros [Hf _]; discriminate.
Qed.

Lemma is_int64_range (y : Z) :
  is_int64 y = true <-> (int64_min <= y <= int64_max)%Z.
Proof. unfold is_int64. rewrite andb_true_iff, !Z.leb_le. reflexivity. Qed.

Lemma int64_scalar_Raise (y : Z) :
  is_int64 y = false -> exists e, int64_scalar y = Raise e.
Proof.
  intros Hy. unfold int64_scalar. rewrite Hy. destruct (_ && _); eauto.
Qed.

Section ExtractAnswerFacts.

Context {F : Type} `{Score F}.

(** On tensors of one shape with at least one column the mask is
    computed: it has the input's shape and holds at the positions of the
    span. *)
Lemma answer_mask_same_shape (input_ids : Tensor Z) (start_scores end_scores : Tensor F) :
  same_shape input_ids start_scores end_scores ->
  ncols input_ids <> 0 ->
  exists mask,
    answer_mask input_ids start_scores end_scores = Ok mask /\
    shape mask = shape input_ids /\
    forall b i, b < nrows input_ids -> i < ncols input_ids ->
      entry mask b i = in_span start_scores end_scores b i.
Proof.
  intros [Hs He] Hn. unfold shape in Hs, He.
  injection Hs as Hsr Hsc. injection He as Her Hec.
  unfold answer_mask, shape, torch_argmax.
  rewrite Hsc, Hec. apply Nat.eqb_neq in Hn. rewrite Hn. cbn [bind].
  unfold torch_le, torch_logical_and, torch_map2.
  cbn [nrows ncols torch_repeat_rows torch_arange torch_where_scalars].
  rewrite Hsr, Her, Nat.mul_1_r.
  repeat (rewrite ?broadcast_dim_refl, ?broadcast_dim_1_l, ?broadcast_dim_1_r;
          cbn [bind nrows ncols torch_where_scalars]).
  eexists. split; [reflexivity|].
  split; [reflexivity|].
  intros b i Hb Hi. unfold broadcast_entry, in_span. cbn [nrows ncols entry].
  repeat (progress (cbn [torch_repeat_rows torch_arange torch_where_scalars
                         nrows ncols entry];
                    rewrite ?(broadcast_index_lt _ _ Hb), ?(broadcast_index_lt _ _ Hi))).
  destruct (_ && _); reflexivity.
Qed.

(** With a pad id that fits [int64] the call then returns, and its result
    is the input masked by the span. *)
Lemma extract_answer_same_shape (input_ids : Tensor Z) (start_scores end_scores : Tensor F)
    (pad_token_id : Z) :
  same_shape input_ids start_scores end_scores ->
  ncols input_ids <> 0 ->
  is_int64 pad_token_id = true ->
  exists out,
    extract_answer input_ids start_scores end_scores pad_token_id = Ok out /\
    span_masked input_ids start_scores end_scores pad_token_id out.
Proof.
  intros Hshape Hn Hpad.
  destruct (answer_mask_same_shape input_ids start_scores end_scores Hshape Hn)
    as (mask & Hmask & Hsh & Hentries).
  unfold shape in Hsh. injection Hsh as Hr Hc.
  unfold extract_answer. rewrite Hmask. cbn [bind].
  unfold torch_where, int64_scalar. rewrite Hpad. cbn [bind].
  unfold torch_map2. rewrite Hr, Hc, !broadcast_dim_refl. cbn [bind].
  eexists. split; [reflexivity|].
  split; [reflexivity|].
  intros b i Hb Hi. unfold broadcast_entry. cbn [entry].
  rewrite Hr, Hc, !(broadcast_index_lt _ _ Hb), !(broadcast_index_lt _ _ Hi).
  now rewrite (Hentries b i Hb Hi).
Qed.

(** A call on tensors of one shape that returns had tokens to reduce over
    and a pad id that fits [int64]. *)
Lemma extract_answer_Ok_inv (input_ids : Tensor Z) (start_scores end_scores : Tensor F)
    (pad_token_id : Z) (out : Tensor Z) :
  same_shape input_ids start_scores end_scores ->
  extract_answer input_ids start_scores end_scores pad_token_id = Ok out ->
  ncols input_ids <> 0 /\ is_int64 pad_token_id = true.
Proof.
  intros Hshape Hout. unfold extract_answer in Hout.
  apply bind_Ok in Hout as (mask & Hmask & Hout). split.
  - unfold answer_mask, shape in Hmask.
    apply bind_Ok in Hmask as (a_s & Hs & _). apply torch_argmax_Ok in Hs as [Hs _].
    destruct Hshape as [Hsh _]. unfold shape in Hsh. injection Hsh as _ Hsc. congruence.
  - unfold torch_where in Hout. apply bind_Ok in Hout as (other & Hother & _).
    now apply int64_scalar_Ok in Hother.
Qed.

(** What a call on tensors of one shape returns is the input masked by the
    span. *)
Lemma extract_answer_Ok_masked (input_ids : Tensor Z) (start_scores end_scores : Tensor F)
    (pad_token_id : Z) (out : Tensor Z) :
  same_shape input_ids start_scores end_scores ->
  extract_answer input_ids start_scores end_scores pad_token_id = Ok out ->
  span_masked input_ids start_scores end_scores pad_token_id out.
Proof.
  intros Hshape Hout.
  destruct (extract_answer_Ok_inv _ _ _ _ _ Hshape Hout) as [Hn Hpad].
  destruct (extract_answer_same_shape input_ids start_scores end_scores pad_token_id
              Hshape Hn Hpad) as (out' & Hout' & Hmasked).
  rewrite Hout in Hout'. now injection Hout' as <-.
Qed.

End ExtractAnswerFacts.

(** C1, as stated, fails on sequences of length zero: the three tensors
    have the shape (1, 0), and the call raises the [IndexError] of
    [torch.argmax] instead of returning a tensor.  It fails as well for a
    pad_token_id that is no [int64] value: with the shape (2, 4) and
    pad_token_id = 2^63 the call raises the [RuntimeError] of line 143. *)
Lemma extract_answer_empty_sequence_raises :
  (same_shape empty_ids empty_scores empty_scores /\
   ~ (exists out,
        extract_answer empty_ids empty_scores empty_scores 1%Z = Ok out /\
        span_masked empty_ids empty_scores empty_scores 1%Z out)) /\
  (same_shape two_ids two_starts two_ends /\
   ~ (exists out,
        extract_answer two_ids two_starts two_ends 9223372036854775808%Z = Ok out /\
        span_masked two_ids two_starts two_ends 9223372036854775808%Z out)).
Proof.
  split; (split; [split; reflexivity|]);
    intros (out & Hout & _); vm_compute in Hout; discriminate.
Qed.

(** C1 (amended): for input_ids of shape (batch_size, sequence_length) with
    sequence_length at least 1, scores of the same shape and a
    pad_token_id in the range of int64, extract_answer returns a tensor of
    that shape whose entry at row b, position i is input_ids[b, i] when
    argmax(start_scores[b]) <= i <= argmax(end_scores[b]) and pad_token_id
    otherwise. *)
Theorem extract_answer_masks_span {F : Type} `{Score F}
    (input_ids : Tensor Z) (start_scores end_scores : Tensor F) (pad_token_id : Z) :
  same_shape input_ids start_scores end_scores ->
  1 <= ncols input_ids ->
  (int64_min <= pad_token_id <= int64_max)%Z ->
  exists out,
    extract_answer input_ids start_scores end_scores pad_token_id = Ok out /\
    shape out = shape input_ids /\
    forall b i, b < nrows input_ids -> i < ncols input_ids ->
      entry out b i =
        if (argmax start_scores b <=? i) && (i <=? argmax end_scores b)
        then entry input_ids b i
        else pad_token_id.
Proof.
  intros Hshape Hn Hpad.
  destruct (@extract_answer_same_shape F _ input_ids start_scores end_scores pad_token_id Hshape)
    as (out & Hout & Hsh & Hentries); [lia|now apply is_int64_range|].
  exists out. auto.
Qed.

Lemma extract_answer_masks_span_witness :
  exists out,
    extract_answer two_ids two_starts two_ends 1%Z = Ok out /\
    shape out = shape two_ids /\
    forall b i, b < nrows two_ids -> i < ncols two_ids ->
      entry out b i =
        if (argmax two_starts b <=? i) && (i <=? argmax two_ends b)
        then entry two_ids b i
        else 1%Z.
Proof.
  apply (@extract_answer_masks_span Z _ two_ids two_starts two_ends 1%Z).
  - split; reflexivity.
  - simpl. lia.
  - unfold int64_min, int64_max. lia.
Defined.

(** C6: whenever extract_answer returns, the positions of a row at which
    the output keeps the input token rather than the pad token are those of
    one interval lo..hi of indices (empty when hi < lo): the mask the code
    builds is the indicator of that interval, and the output takes the
    input token exactly where the mask holds. *)
Theorem extract_answer_keeps_interval {F : Type} `{Score F}
    (input_ids : Tensor Z) (start_scores end_scores : Tensor F) (pad_token_id : Z)
    (out : Tensor Z) :
  extract_answer input_ids start_scores end_scores pad_token_id = Ok out ->
  exists mask,
    answer_mask input_ids start_scores end_scores = Ok mask /\
    ncols out = ncols input_ids /\
    forall b,
      (forall i, i < ncols out ->
         entry out b i =
           if broadcast_entry mask b i then broadcast_entry input_ids b i
           else pad_token_id) /\
      exists lo hi, forall i, i < ncols out ->
        (broadcast_entry mask b i = true <-> lo <= i <= hi).
Proof.
  unfold extract_answer. intros Hout.
  apply bind_Ok in Hout as (mask & Hmask & Hout).
  exists mask. split; [exact Hmask|].
  destruct (answer_mask_rows _ _ _ _ Hmask) as [Hcols Hrows].
  unfold torch_where in Hout.
  apply bind_Ok in Hout as (other & Hother & Hout).
  apply int64_scalar_Ok in Hother as [_ ->].
  unfold torch_map2 in Hout.
  apply bind_Ok in Hout as (r & Hr & Hout).
  rewrite Hcols, broadcast_dim_refl in Hout. cbn [bind] in Hout.
  injection Hout as <-. cbn [ncols entry].
  split; [reflexivity|].
  intros b. split; [reflexivity|].
  destruct (Hrows (broadcast_index (nrows mask) b)) as (lo & hi & Hlh).
  exists lo, hi. intros i Hi. unfold broadcast_entry.
  rewrite Hcols, (broadcast_index_lt _ _ Hi), Hlh by (rewrite Hcols; exact Hi).
  rewrite andb_true_iff, !Nat.leb_le. reflexivity.
Qed.

Lemma extract_answer_keeps_interval_witness :
  exists out mask,
    extract_answer two_ids two_starts two_ends 1%Z = Ok out /\
    answer_mask two_ids two_starts two_ends = Ok mask /\
    ncols out = ncols two_ids /\
    forall b,
      (forall i, i < ncols out ->
         entry out b i =
           if broadcast_entry mask b i then broadcast_entry two_ids b i else 1%Z) /\
      exists lo hi, forall i, i < ncols out ->
        (broadcast_entry mask b i = true <-> lo <= i <= hi).
Proof.
  destruct (extract_answer two_ids two_starts two_ends 1%Z) as [out|e] eqn:E.
  - exists out.
    destruct (extract_answer_keeps_interval two_ids two_starts two_ends 1%Z out E)
      as (mask & Hm & Hrest).
    exists mask. auto.
  - vm_compute in E. discriminate.
Defined.

(** C8, as stated, fails for a pad_token_id that is no [int64] value: in
    row 1 of the two examples the end score peaks before the start score,
    and with pad_token_id = 2^63 the call raises the [RuntimeError] of
    [torch.where] (line 143) instead of returning a padded row. *)
Lemma extract_answer_inverted_span_raises :
  same_shape two_ids two_starts two_ends /\
  1 < nrows two_ids /\
  argmax two_ends 1 < argmax two_starts 1 /\
  extract_answer two_ids two_starts two_ends 9223372036854775808%Z
    = Raise (RuntimeError "value cannot be converted to type int64_t without overflow").
Proof.
  split; [split; reflexivity|]. split; [simpl; lia|].
  split; [vm_compute; lia|]. vm_compute. reflexivity.
Qed.

(** C8 (amended): for tensors of one shape, a pad_token_id in the range of
    int64 and a row b in which argmax(end_scores[b]) <
    argmax(start_scores[b]), extract_answer raises no error and row b of
    its result holds pad_token_id at every position. *)
Theorem extract_answer_inverted_span_all_pad {F : Type} `{Score F}
    (input_ids : Tensor Z) (start_scores end_scores : Tensor F) (pad_token_id : Z)
    (b : nat) :
  same_shape input_ids start_scores end_scores ->
  (int64_min <= pad_token_id <= int64_max)%Z ->
  b < nrows input_ids ->
  argmax end_scores b < argmax start_scores b ->
  exists out,
    extract_answer input_ids start_scores end_scores pad_token_id = Ok out /\
    shape out = shape input_ids /\
    forall i, i < ncols input_ids -> entry out b i = pad_token_id.
Proof.
  intros Hshape Hpad Hb Hlt.
  assert (Hn : ncols input_ids <> 0).
  { destruct Hshape as [Hs _]. unfold shape in Hs. injection Hs as _ Hsc.
    pose proof (argmax_le start_scores b). lia. }
  apply is_int64_range in Hpad.
  destruct (@extract_answer_same_shape F _ input_ids start_scores end_scores pad_token_id
              Hshape Hn Hpad)
    as (out & Hout & Hsh & Hentries).
  exists out. repeat split; auto.
  intros i Hi. rewrite (Hentries b i Hb Hi). unfold in_span.
  destruct (argmax start_scores b <=? i) eqn:E1; [|reflexivity].
  destruct (i <=? argmax end_scores b) eqn:E2; [|reflexivity].
  apply Nat.leb_le in E1, E2. lia.
Qed.

Lemma extract_answer_inverted_span_all_pad_witness :
  exists out,
    extract_answer two_ids two_starts two_ends 1%Z = Ok out /\
    shape out = shape two_ids /\
    forall i, i < ncols two_ids -> entry out 1 i = 1%Z.
Proof.
  apply (@extract_answer_inverted_span_all_pad Z _ two_ids two_starts two_ends 1%Z 1).
  - split; reflexivity.
  - unfold int64_min, int64_max. lia.
  - simpl. lia.
  - vm_compute. lia.
Defined.

(** ** Cleaning of decoded text *)

Lemma opens_branch_In (pattern : Pattern) (c : ascii) (b : string) :
  In (String c b) pattern -> opens_branch pattern c = true.
Proof.
  intros Hin. unfold opens_branch. apply existsb_exists.
  exists (String c b). split; [assumption|]. apply Ascii.eqb_refl.
Qed.

Lemma no_opener_lstrip (pattern : Pattern) (s : string) :
  no_opener pattern s = true -> no_opener pattern (lstrip s) = true.
Proof.
  induction s as [|c s IH]; simpl; intros Hs; [reflexivity|].
  destruct (is_space c).
  - apply andb_true_iff in Hs as [_ Hs]. auto.
  - exact Hs.
Qed.

Lemma no_opener_rstrip (pattern : Pattern) (s : string) :
  no_opener pattern s = true -> no_opener pattern (rstrip s) = true.
Proof.
  induction s as [|c s IH]; simpl; intros Hs; [reflexivity|].
  apply andb_true_iff in Hs as [Hc Hs].
  destruct (is_space c && is_empty (rstrip s)); simpl; [reflexivity|].
  now rewrite Hc, IH.
Qed.

(** The scan copies a character only where no branch matches. *)
Lemma sub_scan_no_opener (pattern : Pattern) (s : string) :
  openers_matched pattern s = true ->
  forall skip, no_opener pattern (sub_scan pattern skip s) = true.
Proof.
  induction s as [|c s IH]; intros Hs skip; [reflexivity|].
  cbn [openers_matched] in Hs. apply andb_true_iff in Hs as [Hc Hs].
  cbn [sub_scan]. destruct skip as [|k]; [|now apply IH].
  destruct (match_here pattern (String c s)) as [branch|]; [now apply IH|].
  rewrite orb_false_r in Hc. cbn [no_opener]. now rewrite Hc, IH.
Qed.

Lemma clean_subseq_no_opener (pattern : Pattern) (s : string) :
  openers_matched pattern s = true ->
  no_opener pattern (clean_subseq pattern s) = true.
Proof.
  intros Hs. unfold clean_subseq, strip, pattern_sub_empty.
  now apply no_opener_rstrip, no_opener_lstrip, sub_scan_no_opener.
Qed.

Lemma re_compile_plain (s : string) : plain_text s = true -> re_compile s = [s].
Proof.
  induction s as [|c s IH]; simpl; [reflexivity|].
  intros Hp. apply andb_true_iff in Hp as [Hc Hp].
  destruct (Ascii.eqb c bar) eqn:E.
  - apply Ascii.eqb_eq in E. subst c. discriminate.
  - now rewrite (IH Hp).
Qed.

Lemma re_compile_branch (s rest : string) :
  plain_text s = true ->
  re_compile (s ++ String bar rest)%string = s :: re_compile rest.
Proof.
  induction s as [|c s IH]; simpl; [reflexivity|].
  intros Hp. apply andb_true_iff in Hp as [Hc Hp].
  destruct (Ascii.eqb c bar) eqn:E.
  - apply Ascii.eqb_eq in E. subst c. discriminate.
  - now rewrite (IH Hp).
Qed.

(** For tokens without regex metacharacters the compiled pattern is the
    alternation of the three tokens. *)
Lemma cleaning_pattern_plain (tokenizer : Tokenizer) :
  forallb plain_text (special_tokens tokenizer) = true ->
  cleaning_pattern tokenizer = special_tokens tokenizer.
Proof.
  unfold special_tokens, cleaning_pattern. cbn [forallb String.concat].
  rewrite !andb_true_iff. intros (Hc & Hp & Hs & _).
  change ("|" ++ ?x)%string with (String bar x).
  rewrite (re_compile_branch _ _ Hc).
  change ("|" ++ ?x)%string with (String bar x).
  now rewrite (re_compile_branch _ _ Hp), (re_compile_plain _ Hs).
Qed.


(** C9: clean_decoded_batch returns one inner tuple per input sequence;
    each is the list of the cleaned subsequences (pattern removed, then
    stripped) that are not empty, in order, so it is never longer than the
    input tuple and can be shorter. *)
Theorem clean_decoded_batch_drops_empty :
  (forall (decoded_batch : list (list string)) (pattern : Pattern),
     List.length (clean_decoded_batch decoded_batch pattern) = List.length decoded_batch /\
     forall k,
       nth k (clean_decoded_batch decoded_batch pattern) [] =
         filter (fun s => negb (is_empty s))
                (map (fun subseq => strip (pattern_sub_empty pattern subseq))
                     (nth k decoded_batch [])) /\
       List.length (nth k (clean_decoded_batch decoded_batch pattern) [])
         <= List.length (nth k decoded_batch [])) /\
  clean_decoded_batch [["<s>Who?"; ""; " Ann did. "; "<pad><pad>"]]
    (cleaning_pattern BartLike.tokenizer) = [["Who?"; "Ann did."]].
Proof.
  split; [|reflexivity].
  intros decoded_batch pattern. unfold clean_decoded_batch.
  split; [apply length_map|].
  intros k.
  assert (Hnth : nth k (map (clean_seq pattern) decoded_batch) [] =
                 clean_seq pattern (nth k decoded_batch [])).
  { change (@nil string) with (clean_seq pattern []) at 1. apply map_nth. }
  rewrite Hnth. split; [reflexivity|].
  unfold clean_seq.
  etransitivity; [apply filter_length_le|]. now rewrite length_map.
Qed.

(** ** Tokenization: the mini-batches *)

Section Chunks.

Context {A : Type}.

Lemma chunks_fuel_nil (fuel n : nat) : chunks_fuel fuel n (@nil A) = [].
Proof. destruct fuel; reflexivity. Qed.

(** Any fuel that covers the list gives the same groups. *)
Lemma chunks_fuel_enough (n : nat) : 0 < n ->
  forall fuel1 fuel2 (l : list A),
    List.length l <= fuel1 -> List.length l <= fuel2 ->
    chunks_fuel fuel1 n l = chunks_fuel fuel2 n l.
Proof.
  intros Hn. induction fuel1 as [|fuel1 IH]; intros fuel2 l H1 H2.
  - destruct l; [|simpl in H1; lia]. now rewrite !chunks_fuel_nil.
  - destruct l as [|x l]; [now rewrite !chunks_fuel_nil|].
    destruct fuel2 as [|fuel2]; [simpl in H2; lia|].
    cbn [chunks_fuel]. f_equal.
    apply IH; rewrite length_skipn; cbn [List.length] in *; lia.
Qed.

Lemma chunks_cons (n : nat) (x : A) (l : list A) : 0 < n ->
  chunks n (x :: l) = firstn n (x :: l) :: chunks n (skipn n (x :: l)).
Proof.
  intros Hn. unfold chunks. cbn [List.length chunks_fuel]. f_equal.
  apply chunks_fuel_enough; [exact Hn| |lia].
  rewrite length_skipn. cbn [List.length]. lia.
Qed.

(** The groups put together give the list back: no element is lost. *)
Lemma concat_chunks (n : nat) (l : list A) : 0 < n -> List.concat (chunks n l) = l.
Proof.
  intros Hn. remember (List.length l) as m eqn:Hm.
  revert l Hm. induction m as [m IH] using lt_wf_ind. intros l Hm.
  destruct l as [|x l]; [reflexivity|].
  rewrite (chunks_cons _ _ _ Hn). cbn [List.concat].
  rewrite (IH (List.length (skipn n (x :: l)))); [apply firstn_skipn| |reflexivity].
  rewrite length_skipn. subst m. cbn [List.length]. lia.
Qed.

Lemma chunks_sizes (n : nat) (l : list A) : 0 < n ->
  group_sizes n (map (@List.length A) (chunks n l)).
Proof.
  intros Hn. remember (List.length l) as m eqn:Hm.
  revert l Hm. induction m as [m IH] using lt_wf_ind. intros l Hm.
  destruct l as [|x l]; [constructor|].
  rewrite (chunks_cons _ _ _ Hn). cbn [map].
  destruct (skipn n (x :: l)) as [|y rest] eqn:Hskip.
  - unfold chunks. cbn. constructor.
    rewrite length_firstn.
    assert (List.length (skipn n (x :: l)) = 0) by now rewrite Hskip.
    rewrite length_skipn in *. cbn [List.length] in *. lia.
  - assert (Hlen : List.length (skipn n (x :: l)) = S (List.length rest))
      by now rewrite Hskip.
    rewrite length_skipn in Hlen.
    assert (Hfirst : List.length (firstn n (x :: l)) = n)
      by (rewrite length_firstn; cbn [List.length] in *; lia).
    rewrite Hfirst. constructor.
    + rewrite (chunks_cons _ _ _ Hn). discriminate.
    + apply (IH (List.length (y :: rest))); [|reflexivity].
      subst m. cbn [List.length] in *. lia.
Qed.



Lemma group_sizes_positive (n : nat) (sizes : list nat) :
  group_sizes n sizes -> 0 < n -> ~ In 0 sizes.
Proof.
  intros Hsizes Hn. induction Hsizes as [|k Hk|sizes Hne Hrest IH]; intros Hz.
  - destruct Hz.
  - destruct Hz as [Hz|[]]. lia.
  - destruct Hz as [Hz|Hz]; [lia|auto].
Qed.

Lemma chunks_not_nil (n : nat) (l g : list A) : 0 < n -> In g (chunks n l) -> g <> [].
Proof.
  intros Hn Hin Hg. subst g.
  apply (group_sizes_positive n _ (chunks_sizes n l Hn) Hn).
  apply in_map_iff. exists []. auto.
Qed.

End Chunks.

Lemma mapM_Forall2 {A B : Type} (f : A -> result B) (l : list A) (bs : list B) :
  mapM f l = Ok bs -> Forall2 (fun a b => f a = Ok b) l bs.
Proof.
  revert bs. induction l as [|a l IH]; simpl; intros bs Hbs.
  - injection Hbs as <-. constructor.
  - apply bind_Ok in Hbs as (b & Hb & Hbs).
    apply bind_Ok in Hbs as (bs' & Hbs' & Hbs).
    injection Hbs as <-. constructor; auto.
Qed.

Lemma Forall2_In_r {A B : Type} (R : A -> B -> Prop) (l : list A) (bs : list B) (b : B) :
  Forall2 R l bs -> In b bs -> exists a, In a l /\ R a b.
Proof.
  induction 1 as [|a b' l bs Hab Hrest IH]; intros Hin; [destruct Hin|].
  destruct Hin as [<-|Hin].
  - exists a. split; [left; reflexivity|assumption].
  - destruct (IH Hin) as (a' & Ha' & HR). exists a'. split; [right|]; assumption.
Qed.




Lemma mem_In (key : string) (l : list string) : mem key l = true <-> In key l.
Proof.
  unfold mem. rewrite existsb_exists. split.
  - intros (x & Hx & E). apply String.eqb_eq in E. now subst.
  - intros Hin. exists key. split; [assumption|apply String.eqb_refl].
Qed.


Lemma column_values_length (dataset_features : list string) (batch : list Row)
    (name : string) (values : list cell) :
  column_values dataset_features batch name = Ok values ->
  List.length values = List.length batch.
Proof.
  unfold column_values. destruct (mem name dataset_features); [|discriminate].
  intros [= <-]. apply length_map.
Qed.





Lemma tokenizer_call_Ok (tokenizer : Tokenizer) (args : list tok_arg)
    (kwargs : tok_kwargs) (enc : BatchEncoding) :
  tokenizer_call tokenizer args kwargs = Ok enc ->
  encode tokenizer (model_max_length tokenizer) args kwargs = inr enc.
Proof.
  unfold tokenizer_call. destruct (encode tokenizer _ args kwargs); [discriminate|].
  now intros [= <-].
Qed.

(** One batch of the mapping: the columns read for it, the tokenizer call
    on them and the rows written. *)
Lemma mapped_batch_call (tokenizer : Tokenizer) (max_seq_length : option Z)
    (dataset_features text_col_names kept : list string)
    (batch written : list Row) :
  (enc <- tok_func (set_model_max_length tokenizer max_seq_length)
                   dataset_features text_col_names batch ;;
   merge_batch kept batch enc) = Ok written ->
  exists text_cols enc,
    mapM (column_values dataset_features batch) text_col_names = Ok text_cols /\
    encode tokenizer max_seq_length (map Column text_cols) batch_kwargs = inr enc /\
    merge_batch kept batch enc = Ok written.
Proof.
  intros Hw. apply bind_Ok in Hw as (enc & Henc & Hw).
  unfold tok_func in Henc. apply bind_Ok in Henc as (text_cols & Hcols & Henc).
  apply tokenizer_call_Ok in Henc. cbn [set_model_max_length model_max_length encode] in Henc.
  now exists text_cols, enc.
Qed.

(** With one sequence per example, every column of the encoding of a batch
    has as many sequences as the batch has examples. *)
Lemma encoding_counts (tokenizer : Tokenizer) (m : option Z) (kw : tok_kwargs)
    (dataset_features text_col_names : list string) (batch : list Row)
    (text_cols : list (list cell)) (enc : BatchEncoding) :
  one_per_example tokenizer ->
  mapM (column_values dataset_features batch) text_col_names = Ok text_cols ->
  encode tokenizer m (map Column text_cols) kw = inr enc ->
  forall name seqs, In (name, seqs) enc -> List.length seqs = List.length batch.
Proof.
  intros Hone Hcols Henc name seqs Hin.
  destruct (Hone _ _ _ _ name seqs Henc Hin) as (values & Hhd & ->).
  apply mapM_Forall2 in Hcols.
  destruct text_cols as [|v text_cols]; [discriminate|]. injection Hhd as ->.
  inversion Hcols; subst. eapply column_values_length; eassumption.
Qed.



(** The stand-in tokenizer does what the script relies on, and truncates
    to every limit that leaves room for its four special tokens. *)
Module BartLikeFacts.

Import BartLike.

Lemma collect_length {A B : Type} (f : A -> tok_error + B) (l : list A) (bs : list B) :
  collect f l = inr bs -> List.length bs = List.length l.
Proof.
  revert bs. induction l as [|a l IH]; simpl; intros bs Hbs.
  - now injection Hbs as <-.
  - destruct (f a) as [e|b]; [discriminate|].
    destruct (collect f l) as [e|bs']; [discriminate|].
    injection Hbs as <-. simpl. now rewrite (IH bs').
Qed.


Lemma raw_ids_length (limit : option nat) (cols : list (list cell)) (seqs : list (list Z)) :
  raw_ids limit (map Column cols) = inr seqs ->
  exists values, hd_error cols = Some values /\ List.length seqs = List.length values.
Proof.
  destruct cols as [|values [|pairs [|more cols]]]; simpl; try discriminate.
  - intros Hseqs. exists values. split; [reflexivity|].
    now apply collect_length in Hseqs.
  - destruct (List.length values =? List.length pairs) eqn:E; [|discriminate].
    apply Nat.eqb_eq in E. intros Hseqs. exists values. split; [reflexivity|].
    apply collect_length in Hseqs. rewrite Hseqs, length_combine. lia.
Qed.

Lemma call_Ok (m : option Z) (args : list tok_arg) (kw : tok_kwargs)
    (enc : BatchEncoding) :
  call m args kw = inr enc ->
  exists limit seqs,
    truncation_limit m kw = inr limit /\
    raw_ids limit args = inr seqs /\
    enc = finish (padding kw) seqs.
Proof.
  unfold call. destruct (truncation_limit m kw) as [e|limit]; [discriminate|].
  destruct (raw_ids limit args) as [e|seqs] eqn:Hraw; [discriminate|].
  intros [= <-]. now exists limit, seqs.
Qed.



Lemma finish_count (pad : bool) (seqs : list (list Z)) (name : string)
    (column : list (list Z)) :
  In (name, column) (finish pad seqs) -> List.length column = List.length seqs.
Proof.
  unfold finish. intros [[= <- <-]|[[= <- <-]|[]]]; apply length_map.
Qed.

Lemma tokenizer_fixed_columns : fixed_columns tokenizer.
Proof.
  intros m m' args args' kw kw' enc enc' Henc Henc'. cbn [encode tokenizer] in *.
  apply call_Ok in Henc as (limit & seqs & _ & _ & ->).
  apply call_Ok in Henc' as (limit' & seqs' & _ & _ & ->).
  reflexivity.
Qed.

Lemma tokenizer_one_per_example : one_per_example tokenizer.
Proof.
  intros m cols kw enc name column Henc Hin. cbn [encode tokenizer] in *.
  apply call_Ok in Henc as (limit & seqs & _ & Hraw & ->).
  destruct (raw_ids_length limit cols seqs Hraw) as (values & Hhd & Hvalues).
  exists values. split; [exact Hhd|].
  rewrite (finish_count _ _ _ _ Hin). congruence.
Qed.








End BartLikeFacts.

(** ** Tokenization: the check of the column names *)

Lemma bind_not_text_columns_error {A B : Type} (r : result A) (k : A -> result B) :
  not_text_columns_error r ->
  (forall a, not_text_columns_error (k a)) ->
  not_text_columns_error (bind r k).
Proof.
  intros Hr Hk e. destruct r as [a|e']; simpl.
  - apply Hk.
  - intros [= <-]. now apply Hr.
Qed.

Lemma mapM_not_text_columns_error {A B : Type} (f : A -> result B) (l : list A) :
  (forall a, not_text_columns_error (f a)) ->
  not_text_columns_error (mapM f l).
Proof.
  intros Hf. induction l as [|a l IH]; simpl.
  - intros e. discriminate.
  - apply bind_not_text_columns_error; [apply Hf|]. intros b.
    apply bind_not_text_columns_error; [exact IH|]. intros bs e. discriminate.
Qed.

Lemma tokenizer_call_not_text_columns_error (tokenizer : Tokenizer)
    (args : list tok_arg) (kwargs : tok_kwargs) :
  not_text_columns_error (tokenizer_call tokenizer args kwargs).
Proof.
  intros e. unfold tokenizer_call.
  destruct (encode tokenizer _ args kwargs) as [[msg|msg]|enc];
    simpl; intros [= <-] || discriminate; reflexivity.
Qed.

Lemma tok_func_not_text_columns_error (tokenizer : Tokenizer)
    (dataset_features text_col_names : list string) (example : list Row) :
  not_text_columns_error (tok_func tokenizer dataset_features text_col_names example).
Proof.
  unfold tok_func. apply bind_not_text_columns_error.
  - apply mapM_not_text_columns_error. intros name e. unfold column_values.
    destruct (mem name dataset_features); [discriminate|]. now intros [= <-].
  - intros cols. apply tokenizer_call_not_text_columns_error.
Qed.

Lemma merge_batch_not_text_columns_error (kept : list string) (batch : list Row)
    (enc : BatchEncoding) :
  not_text_columns_error (merge_batch kept batch enc).
Proof.
  intros e. unfold merge_batch.
  destruct (negb (forallb _ enc)); [now intros [= <-]|].
  destruct (negb (is_nil kept) && _); [now intros [= <-]|discriminate].
Qed.

Lemma Dataset_map_not_text_columns_error (dataset : Dataset)
    (function : list Row -> result BatchEncoding) (batch_size : Z)
    (remove_columns : option (list string)) :
  (forall batch, not_text_columns_error (function batch)) ->
  not_text_columns_error (Dataset_map dataset function batch_size remove_columns).
Proof.
  intros Hf. unfold Dataset_map. apply bind_not_text_columns_error.
  - apply mapM_not_text_columns_error. intros batch.
    apply bind_not_text_columns_error; [apply Hf|].
    intros enc. apply merge_batch_not_text_columns_error.
  - intros written e. destruct (forallb _ _); [discriminate|]. now intros [= <-].
Qed.

(** Past the check of the names, nothing raises its exception. *)
Lemma after_check_not_text_columns_error (dataset : Dataset)
    (text_col_names tokenizer_cols : list string) (tokenizer : Tokenizer)
    (batch_size : Z) (cols_to_remove : option (list string)) :
  not_text_columns_error
    (mapped <- Dataset_map dataset
                 (tok_func tokenizer (features dataset) text_col_names)
                 batch_size cols_to_remove ;;
     formatted <- Dataset_set_format mapped tokenizer_cols ;;
     DataLoader_new formatted batch_size).
Proof.
  apply bind_not_text_columns_error.
  - apply Dataset_map_not_text_columns_error. intros batch.
    apply tok_func_not_text_columns_error.
  - intros mapped. apply bind_not_text_columns_error.
    + intros e. unfold Dataset_set_format.
      destruct (forallb _ tokenizer_cols); [discriminate|]. now intros [= <-].
    + intros formatted e. unfold DataLoader_new.
      destruct (batch_size <=? 0)%Z; [|discriminate]. now intros [= <-].
Qed.

(** C10, as stated, fails in the "only if" direction: with batch_size = 0
    no text column name is a tokenizer column, and the call still raises a
    [ValueError], the one of the data loader at line 113. *)
Lemma tokenize_dataset_batch_size_zero_raises :
  let text_col_names := ["question"; "context"] in
  let r := tokenize_dataset (BartLike.qa_dataset [("Who?", "Ann did.")])
             text_col_names BartLike.tokenizer 0 (Some 256%Z) true in
  exists dummy,
    tokenizer_call BartLike.tokenizer [OneText "Dummy text"] no_kwargs = Ok dummy /\
    keys dummy = ["input_ids"; "attention_mask"] /\
    names_clash text_col_names (keys dummy) = false /\
    fst r = Raise (ValueError (BatchSizeNotPositive 0)) /\
    ~ ((exists e, fst r = Raise e /\ is_ValueError e = true) <->
       names_clash text_col_names (keys dummy) = true).
Proof.
  cbv zeta. eexists. split; [reflexivity|].
  split; [reflexivity|]. split; [reflexivity|]. split; [reflexivity|].
  intros [Hif _].
  assert (Hclash : names_clash ["question"; "context"] ["input_ids"; "attention_mask"] = true).
  { apply Hif. exists (ValueError (BatchSizeNotPositive 0)). split; reflexivity. }
  vm_compute in Hclash. discriminate.
Qed.

(** C10 (amended): tokenize_dataset raises its ValueError "Invalid text
    column names" if and only if the tokenizer answers the dummy call and
    some name in text_col_names is one of the column names it produced;
    the error carries text_col_names, and on it the tokenizer and the input
    dataset are as they were before the call. *)
Theorem tokenize_dataset_invalid_text_columns
    (dataset : Dataset) (text_col_names : list string) (tokenizer : Tokenizer)
    (batch_size : Z) (max_seq_length : option Z) (remove_old_cols : bool) :
  let r := tokenize_dataset dataset text_col_names tokenizer batch_size
                            max_seq_length remove_old_cols in
  ((exists e, fst r = Raise e /\ is_text_columns_error e = true) <->
   (exists dummy,
      tokenizer_call tokenizer [OneText "Dummy text"] no_kwargs = Ok dummy /\
      names_clash text_col_names (keys dummy) = true)) /\
  (forall e, fst r = Raise e -> is_text_columns_error e = true ->
     e = ValueError (InvalidTextColumnNames text_col_names) /\
     snd r = {| the_tokenizer := tokenizer; the_dataset := dataset |}).
Proof.
  cbv zeta. unfold tokenize_dataset.
  destruct (tokenizer_call tokenizer [OneText "Dummy text"] no_kwargs) as [dummy|e0] eqn:Hdummy.
  - destruct (names_clash text_col_names (keys dummy)) eqn:Hclash; cbn [fst snd].
    + split.
      * split; [intros _; now exists dummy|].
        intros _. eexists. split; reflexivity.
      * intros e [= <-] _. split; reflexivity.
    + pose proof (after_check_not_text_columns_error dataset text_col_names (keys dummy)
                    (set_model_max_length tokenizer max_seq_length) batch_size
                    (if remove_old_cols then Some (features dataset) else None)) as Hafter.
      split.
      * split.
        -- intros (e & He & Hown). rewrite (Hafter e He) in Hown. discriminate.
        -- intros (dummy' & [= <-] & Hclash'). congruence.
      * intros e He Hown. rewrite (Hafter e He) in Hown. discriminate.
  - cbn [fst snd].
    pose proof (tokenizer_call_not_text_columns_error tokenizer [OneText "Dummy text"] no_kwargs)
      as Hcall.
    rewrite Hdummy in Hcall.
    split.
    + split.
      * intros (e & [= <-] & Hown). rewrite (Hcall e0 eq_refl) in Hown. discriminate.
      * intros (dummy & Hd & _). discriminate.
    + intros e [= <-] Hown. rewrite (Hcall e0 eq_refl) in Hown. discriminate.
Qed.

Lemma tokenize_dataset_invalid_text_columns_witness :
  let r := tokenize_dataset three_examples ["question"; "input_ids"] BartLike.tokenizer
                            2 (Some 12%Z) true in
  fst r = Raise (ValueError (InvalidTextColumnNames ["question"; "input_ids"])) /\
  snd r = {| the_tokenizer := BartLike.tokenizer; the_dataset := three_examples |}.
Proof.
  cbv zeta. split; [reflexivity|].
  apply (proj2 (tokenize_dataset_invalid_text_columns
                  three_examples ["question"; "input_ids"] BartLike.tokenizer
                  2 (Some 12%Z) true)
               (ValueError (InvalidTextColumnNames ["question"; "input_ids"]))).
  - reflexivity.
  - reflexivity.
Defined.

(** ** The prediction loop *)

Lemma tolist_length {A : Type} (t : Tensor A) : List.length (tolist t) = nrows t.
Proof. unfold tolist. now rewrite length_map, length_seq. Qed.

(** A batch with rows is decoded row by row. *)
Lemma batch_decode_rows (tokenizer : Tokenizer) (input_ids : Tensor Z) :
  nrows input_ids <> 0 ->
  batch_decode tokenizer input_ids = map (decode tokenizer) (tolist input_ids).
Proof.
  intros Hn. unfold batch_decode. pose proof (tolist_length input_ids) as Hlen.
  destruct (tolist input_ids); [simpl in Hlen; congruence|reflexivity].
Qed.


Lemma decode_bart_input_length (input_ids : Tensor Z) (tokenizer : Tokenizer)
    (decoded : list (list string)) :
  decode_bart_input input_ids tokenizer = Ok decoded ->
  nrows input_ids <> 0 ->
  List.length decoded = nrows input_ids.
Proof.
  unfold decode_bart_input. intros Hd Hn. rewrite batch_decode_rows in Hd by exact Hn.
  apply mapM_Forall2, Forall2_length in Hd.
  now rewrite <- Hd, length_map, tolist_length.
Qed.

(** The loop body yields one tuple per example of the mini-batch when the
    model's scores have the shape of the input ids. *)
Lemma predict_batch_one_tuple_per_example {F : Type} `{Score F}
    (model : Model F) (tokenizer : Tokenizer) (input_ids_name : string)
    (pad_id : Z) (pattern : Pattern) (batch : Batch)
    (input_ids : Tensor Z) (start_logits end_logits : Tensor F)
    (tuples : list (list string)) :
  model batch = Ok (start_logits, end_logits) ->
  batch_getitem batch input_ids_name = Ok input_ids ->
  same_shape input_ids start_logits end_logits ->
  nrows input_ids <> 0 ->
  predict_batch model tokenizer input_ids_name pad_id pattern batch = Ok tuples ->
  List.length tuples = nrows input_ids.
Proof.
  intros Hmodel Hids Hshape Hn. unfold predict_batch.
  rewrite Hmodel. cbn [bind]. rewrite Hids. cbn [bind]. intros Hrun.
  apply bind_Ok in Hrun as (answers & Hanswers & Hrun).
  apply bind_Ok in Hrun as (raw_inputs & Hinputs & Hrun).
  apply bind_Ok in Hrun as (raw_answers & Hraw & Hrun).
  injection Hrun as <-.
  assert (Hrows : nrows answers = nrows input_ids).
  { destruct (extract_answer_Ok_masked _ _ _ _ _ Hshape Hanswers) as [Hsh _].
    unfold shape in Hsh. now injection Hsh. }
  apply decode_bart_input_length in Hinputs, Hraw; [|congruence|exact Hn].
  rewrite length_map, length_combine. unfold clean_decoded_batch.
  rewrite !length_map. lia.
Qed.

(** C2 fails on the code: a yielded tuple need not have three strings.
    With the start and the end of the span both on the first token, the
    model's usual answer to a question without answer, the span decodes to
    [<s>] and padding, cleaning leaves nothing of it, and the tuple yielded
    for the example has two strings; with a span that runs from the
    question into the context it has four. *)
Theorem get_predictions_tuple_not_triplet :
  (exists data_loader,
     BartLike.loader_of [("Who?", "Ann did.")] 8 = Ok data_loader /\
     get_predictions (BartLike.pointing_model 0 0) data_loader BartLike.tokenizer "input_ids"
       = {| yielded := [["Who?"; "Ann did."]]; raised := None |} /\
     get_predictions (BartLike.pointing_model 2 9) data_loader BartLike.tokenizer "input_ids"
       = {| yielded := [["Who?"; "Ann did."; "ho?"; "Ann"]]; raised := None |}) /\
  List.length ["Who?"; "Ann did."] <> 3.
Proof.
  split; [|discriminate].
  destruct (BartLike.loader_of [("Who?", "Ann did.")] 8) as [dl|e] eqn:E.
  - exists dl. split; [reflexivity|].
    vm_compute in E. injection E as <-. split; vm_compute; reflexivity.
  - vm_compute in E. discriminate.
Qed.

Section Determinism.

Context {F S : Type} `{Score F}.

(** The loop body reads the model only through its answer to the batch. *)
Lemma predict_batch_answer (model : Model F) (tokenizer : Tokenizer)
    (input_ids_name : string) (pad_id : Z) (pattern : Pattern) (batch : Batch) :
  predict_batch model tokenizer input_ids_name pad_id pattern batch =
  predict_batch (fun _ => model batch) tokenizer input_ids_name pad_id pattern batch.
Proof. reflexivity. Qed.

(** With a module whose answers do not depend on its state, the run is
    that of [get_predictions] with the answers as a function of the
    mini-batch. *)
Lemma predict_loop_from_stateless (model : Model F) (tokenizer : Tokenizer)
    (input_ids_name : string) (pad_id : Z) (pattern : Pattern)
    (state : S) (batches : list (result Batch)) :
  fst (predict_loop_from (module_of model) tokenizer input_ids_name pad_id pattern
                         state batches) =
  predict_loop (predict_batch model tokenizer input_ids_name pad_id pattern) batches.
Proof.
  induction batches as [|[batch|e] batches IH]; cbn [predict_loop_from predict_loop];
    [reflexivity| |reflexivity].
  unfold module_of at 1. rewrite <- predict_batch_answer.
  destruct (predict_batch model tokenizer input_ids_name pad_id pattern batch)
    as [tuples|e]; [|reflexivity].
  destruct (predict_loop_from (module_of model) tokenizer input_ids_name pad_id pattern
                              state batches) as [rest final].
  cbn [fst] in *. now rewrite IH.
Qed.

(** Two runs from two states of a module that answers every mini-batch of
    the run the same way in all its states go alike. *)
Lemma predict_loop_from_states (module : Module F S) (tokenizer : Tokenizer)
    (input_ids_name : string) (pad_id : Z) (pattern : Pattern)
    (batches : list (result Batch)) :
  (forall state state' batch, In (Ok batch) batches ->
     fst (module state batch) = fst (module state' batch)) ->
  forall state1 state2,
    fst (predict_loop_from module tokenizer input_ids_name pad_id pattern state1 batches) =
    fst (predict_loop_from module tokenizer input_ids_name pad_id pattern state2 batches).
Proof.
  induction batches as [|[batch|e] batches IH]; intros Hfixed state1 state2;
    cbn [predict_loop_from]; [reflexivity| |reflexivity].
  pose proof (Hfixed state1 state2 batch (or_introl eq_refl)) as Hanswer.
  destruct (module state1 batch) as [answer1 next1].
  destruct (module state2 batch) as [answer2 next2].
  cbn [fst] in Hanswer. subst answer2.
  destruct (predict_batch (fun _ => answer1) tokenizer input_ids_name pad_id pattern batch)
    as [tuples|e]; [|reflexivity].
  assert (Hrest : forall state state' b, In (Ok b) batches ->
            fst (module state b) = fst (module state' b)).
  { intros state state' b Hb. apply Hfixed. now right. }
  specialize (IH Hrest next1 next2).
  destruct (predict_loop_from module tokenizer input_ids_name pad_id pattern next1 batches)
    as [rest1 final1].
  destruct (predict_loop_from module tokenizer input_ids_name pad_id pattern next2 batches)
    as [rest2 final2].
  cbn [fst] in *. now rewrite IH.
Qed.

End Determinism.

(** For a model that is a function of the mini-batch, the run with a state
    is the run of [get_predictions]. *)
Lemma get_predictions_from_model {F S : Type} `{Score F}
    (model : Model F) (state : S) (data_loader : DataLoader) (tokenizer : Tokenizer)
    (input_ids_name : string) :
  fst (get_predictions_from (module_of model) state data_loader tokenizer input_ids_name) =
  get_predictions model data_loader tokenizer input_ids_name.
Proof. apply predict_loop_from_stateless. Qed.

(** C7: two runs of get_predictions over the same data loader with the
    same tokenizer and the same model, started in any two states of the
    model, yield the same sequence of tuples and end the same way, provided
    the model is a fixed function: its answer to a mini-batch of the loader
    does not depend on its state. *)
Theorem get_predictions_deterministic {F S : Type} `{Score F}
    (module : Module F S) (data_loader : DataLoader) (tokenizer : Tokenizer)
    (input_ids_name : string) (state1 state2 : S) :
  (forall state state' batch, In (Ok batch) (DataLoader_iter data_loader) ->
     fst (module state batch) = fst (module state' batch)) ->
  fst (get_predictions_from module state1 data_loader tokenizer input_ids_name) =
  fst (get_predictions_from module state2 data_loader tokenizer input_ids_name).
Proof.
  intros Hfixed. unfold get_predictions_from.
  now apply predict_loop_from_states.
Qed.

Lemma get_predictions_deterministic_witness :
  fst (get_predictions_from counting_module 0 one_batch_loader BartLike.tokenizer
                            "input_ids") =
  fst (get_predictions_from counting_module
         (snd (get_predictions_from counting_module 0 one_batch_loader BartLike.tokenizer
                                    "input_ids"))
         one_batch_loader BartLike.tokenizer "input_ids").
Proof.
  apply (@get_predictions_deterministic Z nat _ counting_module one_batch_loader
           BartLike.tokenizer "input_ids").
  intros state state' batch _. reflexivity.
Defined.

(** The condition is needed: a model whose answers change with its state
    yields other tuples in a second run over the same loader. *)
Lemma get_predictions_state_dependent :
  let first := get_predictions_from alternating_module 0 one_batch_loader
                                    BartLike.tokenizer "input_ids" in
  let second := get_predictions_from alternating_module (snd first) one_batch_loader
                                     BartLike.tokenizer "input_ids" in
  yielded (fst first) = [["W"; "A"; "A"]] /\
  yielded (fst second) = [["W"; "A"]] /\
  fst first <> fst second.
Proof.
  cbv zeta. split; [vm_compute; reflexivity|]. split; [vm_compute; reflexivity|].
  intros Heq. apply (f_equal (@yielded (list string))) in Heq.
  vm_compute in Heq. discriminate.
Qed.

(** ** Command line *)

Lemma get_qa_args_dataset (dataset_arg : string) (text_col_args : list string)
    (max_seq_length_arg batch_size_arg : option Z) (ns : Namespace) :
  get_qa_args dataset_arg text_col_args max_seq_length_arg batch_size_arg = Ok ns ->
  ns_dataset ns = load_dataset dataset_arg.
Proof.
  unfold get_qa_args. destruct (is_nil text_col_args); [discriminate|].
  intros Hns.
  apply bind_Ok in Hns as (m & _ & Hns). apply bind_Ok in Hns as (b & _ & Hns).
  now injection Hns as <-.
Qed.

Lemma load_dataset_not_jsonl (path : string) (cache_dir : option string) :
  load_dataset path <> load_jsonl_dataset path cache_dir.
Proof. unfold load_dataset, load_jsonl_dataset. intros Heq. discriminate. Qed.

(** C3 fails on the code: the dataset argument is converted by
    [load_dataset] itself ([type=load_dataset] at line 60), with the path in
    the place of the builder name and neither the json builder, nor
    data_files, nor the train split; [load_jsonl_dataset] is not called. *)
Theorem get_qa_args_does_not_load_jsonl :
  exists ns,
    get_qa_args "data.jsonl" ["question"; "context"] None None = Ok ns /\
    ns_dataset ns =
      {| lc_path := "data.jsonl"; lc_data_files := None;
         lc_split := None; lc_cache_dir := None |} /\
    forall cache_dir, ns_dataset ns <> load_jsonl_dataset "data.jsonl" cache_dir.
Proof.
  eexists. split; [reflexivity|]. split; [reflexivity|].
  intros cache_dir. apply load_dataset_not_jsonl.
Qed.

(** * Further properties *)

(** ** Splitting at the separator *)

Lemma prefix_split (p s : string) :
  String.prefix p s = true -> exists t, s = (p ++ t)%string.
Proof.
  revert s. induction p as [|c p IH]; intros s Hp.
  - exists s. reflexivity.
  - destruct s as [|c' s]; [discriminate|]. simpl in Hp.
    destruct (ascii_dec c c') as [->|]; [|discriminate].
    destruct (IH s Hp) as (t & ->). exists t. reflexivity.
Qed.

Lemma prefix_app (p t : string) : String.prefix p (p ++ t)%string = true.
Proof.
  induction p as [|c p IH]; simpl; [destruct t; reflexivity|].
  destruct (ascii_dec c c); [exact IH|contradiction].
Qed.

Lemma prefix_extend (sep p r : string) :
  String.prefix sep p = true -> String.prefix sep (p ++ r)%string = true.
Proof.
  intros Hp. destruct (prefix_split _ _ Hp) as (t & ->).
  replace ((sep ++ t) ++ r)%string with (sep ++ (t ++ r))%string.
  - apply prefix_app.
  - clear. induction sep as [|c sep IH]; simpl; [reflexivity|now rewrite IH].
Qed.

Lemma drop_str_app_length (p t : string) : drop_str (String.length p) (p ++ t)%string = t.
Proof. induction p as [|c p IH]; simpl; [reflexivity|exact IH]. Qed.

Lemma drop_str_empty (n : nat) : drop_str n EmptyString = EmptyString.
Proof. destruct n; reflexivity. Qed.

Lemma split_scan_not_nil (sep : string) (s : string) (skip : nat) :
  split_scan sep skip s <> [].
Proof.
  revert skip. induction s as [|c s IH]; intros skip; cbn [split_scan]; [discriminate|].
  destruct skip as [|k]; [|apply IH].
  destruct (String.prefix sep (String c s)); [discriminate|].
  specialize (IH 0). destruct (split_scan sep 0 s); [contradiction|simpl; discriminate].
Qed.

Lemma concat_push_front (sep : string) (c : ascii) (pieces : list string) :
  pieces <> [] ->
  String.concat sep (push_front c pieces) = String c (String.concat sep pieces).
Proof.
  destruct pieces as [|p [|q ps]]; [contradiction| |]; reflexivity.
Qed.

(** Joining the pieces with the separator gives the text back. *)
Lemma split_scan_join (sep : string) :
  sep <> EmptyString ->
  forall s skip, String.concat sep (split_scan sep skip s) = drop_str skip s.
Proof.
  intros Hsep. induction s as [|c s IH]; intros skip.
  - simpl. now rewrite drop_str_empty.
  - cbn [split_scan]. destruct skip as [|k]; [|apply IH].
    destruct (String.prefix sep (String c s)) eqn:Hp.
    + destruct (prefix_split _ _ Hp) as (t & Ht).
      destruct sep as [|c' sep']; [contradiction|].
      cbn [String.append] in Ht. injection Ht as <- ->.
      replace (String.length (String c sep') - 1) with (String.length sep')
        by (cbn [String.length]; lia).
      pose proof (split_scan_not_nil (String c sep') (sep' ++ t)%string (String.length sep')) as Hne.
      specialize (IH (String.length sep')). rewrite drop_str_app_length in IH.
      destruct (split_scan (String c sep') (String.length sep') (sep' ++ t)%string) as [|q qs];
        [contradiction|].
      cbn [String.concat]. cbn [String.concat] in IH. rewrite IH. reflexivity.
    + rewrite concat_push_front by apply split_scan_not_nil.
      now rewrite IH.
Qed.

Lemma occurs_in_cons (sep : string) (c : ascii) (s : string) :
  occurs_in sep (String c s) = String.prefix sep (String c s) || occurs_in sep s.
Proof. reflexivity. Qed.

(** The first piece is what stands before the first separator. *)
Lemma split_scan_head (sep : string) (s : string) :
  sep <> EmptyString ->
  exists rest, s = (hd EmptyString (split_scan sep 0 s) ++ rest)%string.
Proof.
  intros Hsep. pose proof (split_scan_join sep Hsep s 0) as Hjoin. cbn [drop_str] in Hjoin.
  pose proof (split_scan_not_nil sep s 0) as Hne.
  destruct (split_scan sep 0 s) as [|p [|q ps]]; [contradiction| |]; cbn [hd].
  - exists EmptyString. cbn [String.concat] in Hjoin. rewrite <- Hjoin.
    clear. induction p; simpl; congruence.
  - cbn [String.concat] in Hjoin. eexists. symmetry. exact Hjoin.
Qed.

(** No piece holds the separator. *)
Lemma split_scan_no_separator (sep : string) :
  sep <> EmptyString ->
  forall s skip, Forall (fun piece => occurs_in sep piece = false) (split_scan sep skip s).
Proof.
  intros Hsep. induction s as [|c s IH]; intros skip.
  - cbn [split_scan]. constructor; [|constructor].
    destruct sep; [contradiction|reflexivity].
  - cbn [split_scan]. destruct skip as [|k]; [|apply IH].
    destruct (String.prefix sep (String c s)) eqn:Hp.
    + constructor; [|apply IH]. destruct sep; [contradiction|reflexivity].
    + destruct (split_scan_head sep s Hsep) as (rest & Hrest).
      pose proof (IH 0) as Hall.
      destruct (split_scan sep 0 s) as [|p ps] eqn:Hs;
        [exfalso; now apply (split_scan_not_nil sep s 0)|].
      cbn [push_front hd] in *. inversion Hall as [|? ? Hhead Htail]; subst.
      constructor; [|exact Htail].
      rewrite occurs_in_cons, Hhead, orb_false_r.
      destruct (String.prefix sep (String c p)) eqn:Hcp; [|reflexivity].
      apply (prefix_extend _ _ rest) in Hcp. cbn [String.append] in Hcp.
      congruence.
Qed.

(** ** [decode_bart_input] *)

Lemma Forall2_nth {A B : Type} (R : A -> B -> Prop) (l : list A) (bs : list B)
    (k : nat) (a : A) (b : B) :
  Forall2 R l bs -> k < List.length l -> R (nth k l a) (nth k bs b).
Proof.
  intros HR. revert k. induction HR as [|x y l bs Hxy Hrest IH]; intros k Hk.
  - simpl in Hk. lia.
  - destruct k as [|k]; [exact Hxy|]. simpl. apply IH. simpl in Hk. lia.
Qed.

Lemma tolist_nth {A : Type} (t : Tensor A) (k : nat) :
  k < nrows t -> nth k (tolist t) [] = row_list t k.
Proof.
  intros Hk. unfold tolist.
  rewrite (nth_indep _ [] (row_list t 0)) by now rewrite length_map, length_seq.
  now rewrite map_nth, seq_nth.
Qed.

Lemma str_split_Ok (s sep : string) (pieces : list string) :
  str_split s sep = Ok pieces -> sep <> EmptyString /\ pieces = split_scan sep 0 s.
Proof.
  unfold str_split. destruct sep; simpl; [discriminate|].
  intros [= <-]. split; [discriminate|reflexivity].
Qed.

(** What the parts of row [k] are. *)
Lemma decode_bart_input_nth (input_ids : Tensor Z) (tokenizer : Tokenizer)
    (decoded : list (list string)) (k : nat) :
  decode_bart_input input_ids tokenizer = Ok decoded ->
  k < nrows input_ids ->
  sep_token tokenizer <> EmptyString /\
  nth k decoded [] =
    split_scan (sep_token tokenizer) 0 (decode tokenizer (row_list input_ids k)).
Proof.
  intros Hd Hk. unfold decode_bart_input in Hd.
  rewrite batch_decode_rows in Hd by lia.
  apply mapM_Forall2 in Hd.
  assert (Hlen : k < List.length (map (decode tokenizer) (tolist input_ids))).
  { unfold tolist. now rewrite !length_map, length_seq. }
  pose proof (Forall2_nth _ _ _ k (decode tokenizer []) [] Hd Hlen) as Hnth.
  cbv beta in Hnth. rewrite map_nth, tolist_nth in Hnth by exact Hk.
  apply str_split_Ok in Hnth as [Hsep Hnth]. split; assumption.
Qed.


Lemma mapM_Raise {A B : Type} (f : A -> result B) (l : list A) (e : exn) :
  mapM f l = Raise e -> exists a, In a l /\ f a = Raise e.
Proof.
  induction l as [|a l IH]; simpl; [discriminate|].
  destruct (f a) as [b|e'] eqn:Ha; simpl.
  - destruct (mapM f l) as [bs|e'] eqn:Hl; simpl; [discriminate|].
    intros [= <-]. destruct (IH eq_refl) as (a' & Hin & Ha'). eauto.
  - intros [= <-]. eauto.
Qed.

(** X1: for input_ids with at least one row, decode_bart_input returns
    one tuple of parts per row, and joining the parts of a row with the
    separator token between them gives back the text the tokenizer decoded
    for the row. *)
Theorem decode_bart_input_joins_back (input_ids : Tensor Z) (tokenizer : Tokenizer)
    (decoded : list (list string)) :
  0 < nrows input_ids ->
  decode_bart_input input_ids tokenizer = Ok decoded ->
  List.length decoded = nrows input_ids /\
  forall k, k < nrows input_ids ->
    String.concat (sep_token tokenizer) (nth k decoded []) =
    decode tokenizer (row_list input_ids k).
Proof.
  intros Hn Hd. split; [apply (decode_bart_input_length _ _ _ Hd); lia|].
  intros k Hk.
  destruct (decode_bart_input_nth _ _ _ k Hd Hk) as [Hsep ->].
  now rewrite split_scan_join.
Qed.

Lemma decode_bart_input_joins_back_witness :
  exists decoded,
    0 < nrows two_ids /\
    decode_bart_input two_ids BartLike.tokenizer = Ok decoded /\
    List.length decoded = nrows two_ids /\
    forall k, k < nrows two_ids ->
      String.concat (sep_token BartLike.tokenizer) (nth k decoded []) =
      decode BartLike.tokenizer (row_list two_ids k).
Proof.
  assert (Hn : 0 < nrows two_ids) by (simpl; lia).
  destruct (decode_bart_input two_ids BartLike.tokenizer) as [decoded|e] eqn:E.
  - exists decoded. split; [exact Hn|]. split; [reflexivity|].
    exact (decode_bart_input_joins_back two_ids BartLike.tokenizer decoded Hn E).
  - vm_compute in E. discriminate.
Defined.

(** X2: every tuple of parts decode_bart_input returns has at least one
    part, and no part contains the separator token. *)
Theorem decode_bart_input_parts_hold_no_separator (input_ids : Tensor Z)
    (tokenizer : Tokenizer) (decoded : list (list string)) :
  decode_bart_input input_ids tokenizer = Ok decoded ->
  forall parts, In parts decoded ->
    parts <> [] /\
    forall part, In part parts -> occurs_in (sep_token tokenizer) part = false.
Proof.
  intros Hd parts Hparts.
  unfold decode_bart_input in Hd. apply mapM_Forall2 in Hd.
  destruct (Forall2_In_r _ _ _ _ Hd Hparts) as (text & _ & Hsplit).
  apply str_split_Ok in Hsplit as [Hsep ->].
  split; [apply split_scan_not_nil|].
  intros part Hpart.
  pose proof (split_scan_no_separator _ Hsep text 0) as Hall.
  rewrite Forall_forall in Hall. now apply Hall.
Qed.

Lemma decode_bart_input_parts_hold_no_separator_witness :
  exists decoded,
    decode_bart_input two_ids BartLike.tokenizer = Ok decoded /\
    forall parts, In parts decoded ->
      parts <> [] /\
      forall part, In part parts ->
        occurs_in (sep_token BartLike.tokenizer) part = false.
Proof.
  destruct (decode_bart_input two_ids BartLike.tokenizer) as [decoded|e] eqn:E.
  - exists decoded. split; [reflexivity|].
    exact (decode_bart_input_parts_hold_no_separator two_ids BartLike.tokenizer decoded E).
  - vm_compute in E. discriminate.
Defined.


(** ** Cleaned strings *)

Lemma lstrip_no_leading_space (s : string) : starts_with_space (lstrip s) = false.
Proof.
  induction s as [|c s IH]; simpl; [reflexivity|].
  destruct (is_space c) eqn:E; [exact IH|]. simpl. exact E.
Qed.

Lemma rstrip_keeps_head (s : string) :
  starts_with_space s = false -> starts_with_space (rstrip s) = false.
Proof.
  destruct s as [|c s]; simpl; [reflexivity|]. intros Hc. rewrite Hc. simpl. exact Hc.
Qed.

Lemma rstrip_no_trailing_space (s : string) : ends_with_space (rstrip s) = false.
Proof.
  induction s as [|c s IH]; [reflexivity|]. cbn [rstrip].
  destruct (is_space c && is_empty (rstrip s)) eqn:E; [reflexivity|].
  destruct (rstrip s) as [|c' r] eqn:Hr.
  - simpl in *. now rewrite andb_true_r in E.
  - exact IH.
Qed.

Lemma lstrip_fixed (s : string) : starts_with_space s = false -> lstrip s = s.
Proof. destruct s as [|c s]; simpl; [reflexivity|]. now intros ->. Qed.

Lemma rstrip_fixed (s : string) : ends_with_space s = false -> rstrip s = s.
Proof.
  induction s as [|c s IH]; [reflexivity|]. intros He. cbn [rstrip].
  destruct s as [|c' s'].
  - simpl in *. now rewrite He.
  - rewrite IH by exact He. cbn [is_empty]. now rewrite andb_false_r.
Qed.

Lemma strip_is_stripped (s : string) :
  is_empty (strip s) = false -> is_stripped (strip s) = true.
Proof.
  intros Hne. unfold is_stripped. rewrite Hne. unfold strip.
  rewrite rstrip_keeps_head by apply lstrip_no_leading_space.
  now rewrite rstrip_no_trailing_space.
Qed.

Lemma strip_fixed (s : string) : is_stripped s = true -> strip s = s.
Proof.
  unfold is_stripped. rewrite !andb_true_iff, !negb_true_iff. intros [[_ Hs] He].
  unfold strip. now rewrite (lstrip_fixed _ Hs), (rstrip_fixed _ He).
Qed.

(** The strings of a cleaned sequence: each is the cleaning of a
    subsequence, is not empty and has no whitespace at its ends. *)
Lemma clean_seq_In (pattern : Pattern) (seq : list string) (s : string) :
  In s (clean_seq pattern seq) ->
  (exists subseq, In subseq seq /\ s = clean_subseq pattern subseq) /\
  is_stripped s = true.
Proof.
  unfold clean_seq. intros Hs. apply filter_In in Hs as [Hs Hne].
  apply in_map_iff in Hs as (subseq & <- & Hsub).
  split; [now exists subseq|].
  apply strip_is_stripped. now apply negb_true_iff in Hne.
Qed.

(** X4: every string of every tuple clean_decoded_batch returns is
    non-empty and has no whitespace character at its start or at its
    end. *)
Theorem clean_decoded_batch_strings_stripped
    (decoded_batch : list (list string)) (pattern : Pattern) :
  forall seq s,
    In seq (clean_decoded_batch decoded_batch pattern) -> In s seq ->
    s <> EmptyString /\ starts_with_space s = false /\ ends_with_space s = false.
Proof.
  intros seq s Hseq Hs. unfold clean_decoded_batch in Hseq.
  apply in_map_iff in Hseq as (seq0 & <- & _).
  apply clean_seq_In in Hs as [_ Hstripped].
  unfold is_stripped in Hstripped.
  rewrite !andb_true_iff, !negb_true_iff in Hstripped.
  destruct Hstripped as [[Hne Hstart] Hend].
  repeat split; [|assumption|assumption].
  intros ->. discriminate.
Qed.

Lemma clean_decoded_batch_strings_stripped_witness :
  In ["Who?"; "Ann did."]
     (clean_decoded_batch [["<s>Who?"; ""; " Ann did. "; "<pad><pad>"]]
                          (cleaning_pattern BartLike.tokenizer)) /\
  In "Who?" ["Who?"; "Ann did."] /\
  "Who?" <> EmptyString /\
  starts_with_space "Who?" = false /\ ends_with_space "Who?" = false.
Proof.
  assert (Hseq : In ["Who?"; "Ann did."]
                    (clean_decoded_batch [["<s>Who?"; ""; " Ann did. "; "<pad><pad>"]]
                                         (cleaning_pattern BartLike.tokenizer)))
    by (vm_compute; left; reflexivity).
  assert (Hs : In "Who?" ["Who?"; "Ann did."]) by (left; reflexivity).
  split; [exact Hseq|]. split; [exact Hs|].
  exact (clean_decoded_batch_strings_stripped
           [["<s>Who?"; ""; " Ann did. "; "<pad><pad>"]]
           (cleaning_pattern BartLike.tokenizer) ["Who?"; "Ann did."] "Who?" Hseq Hs).
Defined.

Lemma match_here_occurs(pattern : Pattern) (s branch : string) :
  match_here pattern s = Some branch ->
  In branch pattern /\ branch <> EmptyString /\ String.prefix branch s = true.
Proof.
  unfold match_here. intros Hfind. apply find_some in Hfind as [Hin Hb].
  apply andb_true_iff in Hb as [Hne Hp]. repeat split; [assumption| |assumption].
  intros ->. discriminate.
Qed.

(** The scan copies a text in which no branch occurs. *)
Lemma sub_scan_without_occurrence (pattern : Pattern) (s : string) :
  (forall branch, In branch pattern -> branch <> EmptyString ->
     occurs_in branch s = false) ->
  sub_scan pattern 0 s = s.
Proof.
  induction s as [|c s IH]; intros Hfree; [reflexivity|]. cbn [sub_scan].
  destruct (match_here pattern (String c s)) as [branch|] eqn:Hm.
  - apply match_here_occurs in Hm as (Hin & Hne & Hp).
    specialize (Hfree branch Hin Hne). rewrite occurs_in_cons, Hp in Hfree. discriminate.
  - rewrite IH; [reflexivity|].
    intros branch Hin Hne. specialize (Hfree branch Hin Hne).
    rewrite occurs_in_cons in Hfree. now apply orb_false_iff in Hfree.
Qed.

(** X5: on decoded text in which no non-empty branch of the pattern occurs,
    clean_decoded_batch only strips: every inner tuple is the tuple of the
    stripped subsequences that are not empty. *)
Theorem clean_decoded_batch_only_strips
    (decoded_batch : list (list string)) (pattern : Pattern) :
  (forall seq subseq branch,
     In seq decoded_batch -> In subseq seq ->
     In branch pattern -> branch <> EmptyString ->
     occurs_in branch subseq = false) ->
  clean_decoded_batch decoded_batch pattern =
  map (fun seq => filter (fun s => negb (is_empty s)) (map strip seq)) decoded_batch.
Proof.
  intros Hfree. unfold clean_decoded_batch. apply map_ext_in. intros seq Hseq.
  unfold clean_seq. f_equal. apply map_ext_in. intros subseq Hsub.
  unfold clean_subseq, pattern_sub_empty.
  rewrite sub_scan_without_occurrence; [reflexivity|].
  intros branch Hin Hne. now apply (Hfree seq subseq branch).
Qed.

Lemma clean_decoded_batch_only_strips_witness :
  clean_decoded_batch [["  Who? "; " "; "Ann did."]] (cleaning_pattern BartLike.tokenizer) =
  map (fun seq => filter (fun s => negb (is_empty s)) (map strip seq))
      [["  Who? "; " "; "Ann did."]].
Proof.
  apply (clean_decoded_batch_only_strips
           [["  Who? "; " "; "Ann did."]] (cleaning_pattern BartLike.tokenizer)).
  intros seq subseq branch [<-|[]] Hsub Hbranch _.
  vm_compute in Hbranch.
  repeat (destruct Hsub as [<-|Hsub];
          [repeat (destruct Hbranch as [<-|Hbranch]; [reflexivity|]); destruct Hbranch|]).
  destruct Hsub.
Defined.

Lemma match_here_opens (pattern : Pattern) (c : ascii) (s branch : string) :
  match_here pattern (String c s) = Some branch -> opens_branch pattern c = true.
Proof.
  intros Hm. apply match_here_occurs in Hm as (Hin & Hne & Hp).
  destruct branch as [|c' b]; [contradiction|]. simpl in Hp.
  destruct (ascii_dec c' c) as [->|]; [|discriminate].
  now apply (opens_branch_In _ _ b).
Qed.

Lemma sub_scan_no_opener_fixed (pattern : Pattern) (s : string) :
  no_opener pattern s = true -> sub_scan pattern 0 s = s.
Proof.
  induction s as [|c s IH]; intros Hs; [reflexivity|].
  cbn [no_opener] in Hs. apply andb_true_iff in Hs as [Hc Hs]. cbn [sub_scan].
  destruct (match_here pattern (String c s)) as [branch|] eqn:Hm.
  - apply match_here_opens in Hm. rewrite Hm in Hc. discriminate.
  - now rewrite IH.
Qed.

Lemma filter_map_fixed {A : Type} (f : A -> A) (keep : A -> bool) (l : list A) :
  (forall x, In x l -> f x = x /\ keep x = true) -> filter keep (map f l) = l.
Proof.
  induction l as [|x l IH]; intros Hall; [reflexivity|]. simpl.
  destruct (Hall x (or_introl eq_refl)) as [-> ->].
  rewrite IH; [reflexivity|]. intros y Hy. apply Hall. now right.
Qed.

(** X6: on decoded text in which every character that begins a branch of
    the pattern starts an occurrence of a branch, cleaning is idempotent:
    cleaning the cleaned batch again returns it unchanged. *)
Theorem clean_decoded_batch_idempotent
    (decoded_batch : list (list string)) (pattern : Pattern) :
  (forall seq subseq, In seq decoded_batch -> In subseq seq ->
     openers_matched pattern subseq = true) ->
  clean_decoded_batch (clean_decoded_batch decoded_batch pattern) pattern =
  clean_decoded_batch decoded_batch pattern.
Proof.
  intros Hguard. unfold clean_decoded_batch. rewrite map_map.
  apply map_ext_in. intros seq Hseq.
  unfold clean_seq at 1. apply filter_map_fixed. intros s Hs.
  apply clean_seq_In in Hs as [(subseq & Hsub & ->) Hstripped].
  assert (Hfixed : clean_subseq pattern (clean_subseq pattern subseq) =
                   clean_subseq pattern subseq).
  { unfold clean_subseq at 1. unfold pattern_sub_empty.
    rewrite sub_scan_no_opener_fixed
      by (apply clean_subseq_no_opener; now apply (Hguard seq)).
    now apply strip_fixed. }
  split; [exact Hfixed|].
  unfold is_stripped in Hstripped. rewrite !andb_true_iff in Hstripped. tauto.
Qed.

Lemma clean_decoded_batch_idempotent_witness :
  clean_decoded_batch
    (clean_decoded_batch [["<s>Who?"; ""; " Ann did. "; "<pad><pad>"]]
       (cleaning_pattern BartLike.tokenizer))
    (cleaning_pattern BartLike.tokenizer) =
  clean_decoded_batch [["<s>Who?"; ""; " Ann did. "; "<pad><pad>"]]
    (cleaning_pattern BartLike.tokenizer).
Proof.
  apply (clean_decoded_batch_idempotent
           [["<s>Who?"; ""; " Ann did. "; "<pad><pad>"]]
           (cleaning_pattern BartLike.tokenizer)).
  intros seq subseq [<-|[]] Hsub.
  repeat (destruct Hsub as [<-|Hsub]; [reflexivity|]). destruct Hsub.
Defined.

(** ** [extract_answer]: errors and ties *)

(** X7: for tensors of one shape, extract_answer raises exactly when the
    sequence length is zero or pad_token_id is outside the range of int64.
    With a sequence length of zero the exception is the IndexError of
    argmax, however many rows the batch has and whatever the pad id; with a
    pad id in range no other exception is raised. *)
Theorem extract_answer_raises_iff_no_tokens {F : Type} `{Score F}
    (input_ids : Tensor Z) (start_scores end_scores : Tensor F) (pad_token_id : Z) :
  same_shape input_ids start_scores end_scores ->
  ((exists e, extract_answer input_ids start_scores end_scores pad_token_id = Raise e) <->
   (ncols input_ids = 0 \/ is_int64 pad_token_id = false)) /\
  (ncols input_ids = 0 ->
   exists msg,
     extract_answer input_ids start_scores end_scores pad_token_id = Raise (IndexError msg)) /\
  (is_int64 pad_token_id = true ->
   forall e, extract_answer input_ids start_scores end_scores pad_token_id = Raise e ->
     exists msg, e = IndexError msg).
Proof.
  intros Hshape.
  assert (Hzero : ncols input_ids = 0 ->
            exists msg,
              extract_answer input_ids start_scores end_scores pad_token_id
              = Raise (IndexError msg)).
  { intros Hz. destruct Hshape as [Hs _]. unfold shape in Hs. injection Hs as _ Hsc.
    unfold extract_answer, answer_mask, torch_argmax, shape.
    rewrite Hsc, Hz. cbn. eexists. reflexivity. }
  assert (Hrange : ncols input_ids <> 0 -> is_int64 pad_token_id = false ->
            exists e,
              extract_answer input_ids start_scores end_scores pad_token_id = Raise e).
  { intros Hnz Hpad.
    destruct (answer_mask_same_shape input_ids start_scores end_scores Hshape Hnz)
      as (mask & Hmask & _).
    destruct (int64_scalar_Raise _ Hpad) as (e & He).
    exists e. unfold extract_answer. rewrite Hmask. cbn [bind].
    unfold torch_where. now rewrite He. }
  split; [split|split].
  - intros (e & He).
    destruct (Nat.eq_dec (ncols input_ids) 0) as [Hz|Hnz]; [now left|right].
    destruct (is_int64 pad_token_id) eqn:Hpad; [|reflexivity].
    destruct (extract_answer_same_shape input_ids start_scores end_scores pad_token_id
                Hshape Hnz Hpad) as (out & Hout & _). congruence.
  - intros [Hz|Hpad].
    + destruct (Hzero Hz) as (msg & Hmsg). eauto.
    + destruct (Nat.eq_dec (ncols input_ids) 0) as [Hz|Hnz].
      * destruct (Hzero Hz) as (msg & Hmsg). eauto.
      * now apply Hrange.
  - exact Hzero.
  - intros Hpad e He.
    destruct (Nat.eq_dec (ncols input_ids) 0) as [Hz|Hnz].
    + destruct (Hzero Hz) as (msg & Hmsg). rewrite Hmsg in He. injection He as <-. eauto.
    + destruct (extract_answer_same_shape input_ids start_scores end_scores pad_token_id
                  Hshape Hnz Hpad) as (out & Hout & _). congruence.
Qed.

Lemma extract_answer_raises_iff_no_tokens_witness :
  ((exists e, extract_answer two_ids two_starts two_ends 1%Z = Raise e) <->
   (ncols two_ids = 0 \/ is_int64 1%Z = false)) /\
  (ncols two_ids = 0 ->
   exists msg, extract_answer two_ids two_starts two_ends 1%Z = Raise (IndexError msg)) /\
  (is_int64 1%Z = true ->
   forall e, extract_answer two_ids two_starts two_ends 1%Z = Raise e ->
     exists msg, e = IndexError msg).
Proof.
  apply (@extract_answer_raises_iff_no_tokens Z _ two_ids two_starts two_ends 1%Z).
  split; reflexivity.
Defined.

(** X8: with integer scores of the input's shape, at least one token and
    a pad_token_id in the range of int64, the span kept in row b runs from the first position that carries the
    greatest start score of the row to the first position that carries its
    greatest end score: ties go to the earliest position. *)
Theorem extract_answer_span_between_first_maxima
    (input_ids : Tensor Z) (start_scores end_scores : Tensor Z) (pad_token_id : Z)
    (b : nat) :
  same_shape input_ids start_scores end_scores ->
  1 <= ncols input_ids ->
  (int64_min <= pad_token_id <= int64_max)%Z ->
  b < nrows input_ids ->
  exists out s e,
    extract_answer input_ids start_scores end_scores pad_token_id = Ok out /\
    s < ncols input_ids /\ e < ncols input_ids /\
    (forall i, i < ncols input_ids ->
       (entry start_scores b i <= entry start_scores b s)%Z) /\
    (forall i, i < s -> (entry start_scores b i < entry start_scores b s)%Z) /\
    (forall i, i < ncols input_ids ->
       (entry end_scores b i <= entry end_scores b e)%Z) /\
    (forall i, i < e -> (entry end_scores b i < entry end_scores b e)%Z) /\
    forall i, i < ncols input_ids ->
      entry out b i =
        if (s <=? i) && (i <=? e) then entry input_ids b i else pad_token_id.
Proof.
  intros Hshape Hn Hpad Hb.
  destruct (extract_answer_same_shape input_ids start_scores end_scores pad_token_id Hshape)
    as (out & Hout & _ & Hentries); [lia|now apply is_int64_range|].
  destruct Hshape as [Hs He]. unfold shape in Hs, He.
  injection Hs as _ Hsc. injection He as _ Hec.
  assert (Hsn : 0 < ncols start_scores) by lia.
  assert (Hen : 0 < ncols end_scores) by lia.
  destruct (argmax_Z_greatest start_scores b Hsn) as [Hsmax Hsfirst].
  destruct (argmax_Z_greatest end_scores b Hen) as [Hemax Hefirst].
  exists out, (argmax start_scores b), (argmax end_scores b).
  split; [exact Hout|].
  split; [rewrite <- Hsc; now apply argmax_lt|].
  split; [rewrite <- Hec; now apply argmax_lt|].
  split; [intros i Hi; apply Hsmax; lia|]. split; [exact Hsfirst|].
  split; [intros i Hi; apply Hemax; lia|]. split; [exact Hefirst|].
  intros i Hi. exact (Hentries b i Hb Hi).
Qed.

Lemma extract_answer_span_between_first_maxima_witness :
  exists out s e,
    extract_answer two_ids two_starts two_ends 1%Z = Ok out /\
    s < ncols two_ids /\ e < ncols two_ids /\
    (forall i, i < ncols two_ids -> (entry two_starts 0 i <= entry two_starts 0 s)%Z) /\
    (forall i, i < s -> (entry two_starts 0 i < entry two_starts 0 s)%Z) /\
    (forall i, i < ncols two_ids -> (entry two_ends 0 i <= entry two_ends 0 e)%Z) /\
    (forall i, i < e -> (entry two_ends 0 i < entry two_ends 0 e)%Z) /\
    forall i, i < ncols two_ids ->
      entry out 0 i = if (s <=? i) && (i <=? e) then entry two_ids 0 i else 1%Z.
Proof.
  apply (extract_answer_span_between_first_maxima two_ids two_starts two_ends 1%Z 0).
  - split; reflexivity.
  - simpl. lia.
  - unfold int64_min, int64_max. lia.
  - simpl. lia.
Defined.

(** X9: scores for another number of examples are refused: when the
    scores have tokens but start_scores has neither the input's number of
    rows nor a single row, and the input has more than one row or none,
    the comparison with the position mask raises a RuntimeError. *)
Theorem extract_answer_batch_mismatch_raises {F : Type} `{Score F}
    (input_ids : Tensor Z) (start_scores end_scores : Tensor F) (pad_token_id : Z) :
  ncols start_scores <> 0 ->
  ncols end_scores <> 0 ->
  nrows start_scores <> nrows input_ids ->
  nrows start_scores <> 1 ->
  nrows input_ids <> 1 ->
  exists msg,
    extract_answer input_ids start_scores end_scores pad_token_id
    = Raise (RuntimeError msg).
Proof.
  intros Hs He Hrows Hs1 Hi1.
  unfold extract_answer, answer_mask, shape.
  rewrite (torch_argmax_nonempty _ Hs), (torch_argmax_nonempty _ He). cbn [bind].
  unfold torch_le at 1. unfold torch_map2.
  cbn [nrows ncols torch_repeat_rows torch_arange]. rewrite Nat.mul_1_r.
  unfold broadcast_dim at 1.
  apply Nat.eqb_neq in Hrows, Hs1, Hi1. rewrite Hrows, Hs1, Hi1. cbn [bind].
  eexists. reflexivity.
Qed.

Lemma extract_answer_batch_mismatch_raises_witness :
  exists msg,
    extract_answer two_ids (BartLike.peak 3 4 1) (BartLike.peak 3 4 2) 1%Z
    = Raise (RuntimeError msg).
Proof.
  apply (@extract_answer_batch_mismatch_raises Z _ two_ids
           (BartLike.peak 3 4 1) (BartLike.peak 3 4 2) 1%Z);
    simpl; lia.
Defined.

(** ** [get_predictions]: what is yielded *)

Section PredictLoopFacts.

Context {F : Type} `{Score F}.

(** Every yielded tuple comes from the loop body on a batch of the loader. *)
Lemma predict_loop_yielded_In (step : Batch -> result (list (list string)))
    (batches : list (result Batch)) (tuple : list string) :
  In tuple (yielded (predict_loop step batches)) ->
  exists batch tuples,
    In (Ok batch) batches /\ step batch = Ok tuples /\ In tuple tuples.
Proof.
  induction batches as [|[batch|e] batches IH]; simpl; [intros []| |intros []].
  destruct (step batch) as [tuples|e] eqn:Hstep; simpl; [|intros []].
  intros Hin. apply in_app_or in Hin as [Hin|Hin].
  - exists batch, tuples. auto.
  - destruct (IH Hin) as (batch' & tuples' & Hb & Hs & Ht).
    exists batch', tuples'. auto.
Qed.

(** A run that ends without exception went through every batch. *)
Lemma predict_loop_complete (step : Batch -> result (list (list string)))
    (batches : list (result Batch)) :
  raised (predict_loop step batches) = None ->
  exists tuples_of,
    Forall2 (fun item tuples => exists batch, item = Ok batch /\ step batch = Ok tuples)
            batches tuples_of /\
    yielded (predict_loop step batches) = List.concat tuples_of.
Proof.
  induction batches as [|[batch|e] batches IH]; simpl.
  - intros _. exists []. split; [constructor|reflexivity].
  - destruct (step batch) as [tuples|e] eqn:Hstep; simpl; [|discriminate].
    intros Hr. destruct (IH Hr) as (tuples_of & Hall & Hy).
    exists (tuples :: tuples_of). split.
    + constructor; [exists batch; auto|exact Hall].
    + simpl. now rewrite Hy.
  - discriminate.
Qed.

(** The tuples of one batch: cleaned parts of the input followed by
    cleaned parts of the answer. *)
Lemma predict_batch_tuple (model : Model F) (tokenizer : Tokenizer)
    (input_ids_name : string) (pad_id : Z) (pattern : Pattern) (batch : Batch)
    (tuples : list (list string)) (tuple : list string) :
  predict_batch model tokenizer input_ids_name pad_id pattern batch = Ok tuples ->
  In tuple tuples ->
  exists raw_input raw_answer,
    tuple = clean_seq pattern raw_input ++ clean_seq pattern raw_answer.
Proof.
  unfold predict_batch. intros Hrun Hin.
  apply bind_Ok in Hrun as ([start_logits end_logits] & _ & Hrun).
  apply bind_Ok in Hrun as (input_ids & _ & Hrun).
  apply bind_Ok in Hrun as (answers & _ & Hrun).
  apply bind_Ok in Hrun as (raw_inputs & _ & Hrun).
  apply bind_Ok in Hrun as (raw_answers & _ & Hrun).
  injection Hrun as <-.
  apply in_map_iff in Hin as ([decoded_input decoded_answer] & <- & Hpair).
  pose proof (in_combine_l _ _ _ _ Hpair) as Hl.
  pose proof (in_combine_r _ _ _ _ Hpair) as Hr.
  unfold clean_decoded_batch in Hl, Hr.
  apply in_map_iff in Hl as (raw_input & <- & _).
  apply in_map_iff in Hr as (raw_answer & <- & _).
  now exists raw_input, raw_answer.
Qed.

End PredictLoopFacts.

(** X10: no field of a tuple that get_predictions yields is the empty
    string, and none starts or ends with a whitespace character. *)
Theorem get_predictions_fields_stripped {F : Type} `{Score F}
    (model : Model F) (data_loader : DataLoader) (tokenizer : Tokenizer)
    (input_ids_name : string) :
  forall tuple field,
    In tuple (yielded (get_predictions model data_loader tokenizer input_ids_name)) ->
    In field tuple ->
    field <> EmptyString /\
    starts_with_space field = false /\ ends_with_space field = false.
Proof.
  intros tuple field Htuple Hfield. unfold get_predictions in Htuple.
  apply predict_loop_yielded_In in Htuple as (batch & tuples & _ & Hstep & Hin).
  destruct (predict_batch_tuple _ _ _ _ _ _ _ _ Hstep Hin) as (ri & ra & ->).
  assert (Hstripped : is_stripped field = true).
  { apply in_app_or in Hfield as [Hf|Hf]; now apply clean_seq_In in Hf. }
  unfold is_stripped in Hstripped.
  rewrite !andb_true_iff, !negb_true_iff in Hstripped.
  destruct Hstripped as [[Hne Hstart] Hend].
  repeat split; [|assumption|assumption].
  intros ->. discriminate.
Qed.

Lemma get_predictions_fields_stripped_witness :
  "W" <> EmptyString /\ starts_with_space "W" = false /\ ends_with_space "W" = false.
Proof.
  apply (@get_predictions_fields_stripped Z _ (BartLike.pointing_model 4 4)
           one_batch_loader BartLike.tokenizer "input_ids" ["W"; "A"; "A"] "W").
  - vm_compute. left. reflexivity.
  - left. reflexivity.
Defined.

(** ** Special tokens in the cleaned text *)

Lemma prefix_occurs (w s : string) : String.prefix w s = true -> occurs_in w s = true.
Proof. intros Hp. destruct s; cbn [occurs_in]; now rewrite Hp. Qed.

Lemma occurs_in_empty (w : string) : occurs_in w EmptyString = true -> w = EmptyString.
Proof. destruct w; simpl; [reflexivity|discriminate]. Qed.

Lemma occurs_in_app_r (w pre t : string) :
  occurs_in w t = true -> occurs_in w (pre ++ t)%string = true.
Proof.
  intros Ht. induction pre as [|c pre IH]; [exact Ht|].
  cbn [String.append]. rewrite occurs_in_cons, IH. apply orb_true_r.
Qed.

Lemma occurs_in_app_l (w t post : string) :
  occurs_in w t = true -> occurs_in w (t ++ post)%string = true.
Proof.
  induction t as [|c t IH]; intros Ht.
  - apply occurs_in_empty in Ht. subst w. cbn [String.append].
    destruct post; reflexivity.
  - rewrite occurs_in_cons in Ht. cbn [String.append]. rewrite occurs_in_cons.
    apply orb_true_iff in Ht as [Hp|Ht].
    + apply (prefix_extend _ _ post) in Hp. cbn [String.append] in Hp.
      now rewrite Hp.
    + rewrite (IH Ht). apply orb_true_r.
Qed.

Lemma append_assoc (a b c : string) : ((a ++ b) ++ c = a ++ (b ++ c))%string.
Proof. induction a as [|x a IH]; simpl; [reflexivity|now rewrite IH]. Qed.

(** Where [u ++ m] occurs, [m] occurs. *)
Lemma occurs_in_app_inv (u m s : string) :
  occurs_in (u ++ m) s = true -> occurs_in m s = true.
Proof.
  assert (Hprefix : forall t, String.prefix (u ++ m) t = true -> occurs_in m t = true).
  { intros t Hp. destruct (prefix_split _ _ Hp) as (rest & ->).
    rewrite append_assoc. apply occurs_in_app_r, prefix_occurs, prefix_app. }
  induction s as [|c s IH]; intros Hocc.
  - apply Hprefix. simpl in Hocc. now rewrite orb_false_r in Hocc.
  - rewrite occurs_in_cons in Hocc. apply orb_true_iff in Hocc as [Hp|Hocc].
    + now apply Hprefix.
    + rewrite occurs_in_cons, (IH Hocc). apply orb_true_r.
Qed.

Lemma lstrip_suffix (s : string) : exists pre, s = (pre ++ lstrip s)%string.
Proof.
  induction s as [|c s IH]; [now exists EmptyString|]. simpl.
  destruct (is_space c); [|now exists EmptyString].
  destruct IH as (pre & Hpre). exists (String c pre). simpl. now rewrite <- Hpre.
Qed.

Lemma rstrip_prefix (s : string) : exists post, s = (rstrip s ++ post)%string.
Proof.
  induction s as [|c s IH]; [now exists EmptyString|]. cbn [rstrip].
  destruct (is_space c && is_empty (rstrip s)); [now exists (String c s)|].
  destruct IH as (post & Hpost). exists post. simpl. now rewrite <- Hpost.
Qed.

(** Stripping makes no new occurrence. *)
Lemma occurs_in_strip (w s : string) :
  occurs_in w (strip s) = true -> occurs_in w s = true.
Proof.
  unfold strip. intros Hocc.
  destruct (rstrip_prefix (lstrip s)) as (post & Hpost).
  destruct (lstrip_suffix s) as (pre & Hpre).
  rewrite Hpre. apply occurs_in_app_r. rewrite Hpost. now apply occurs_in_app_l.
Qed.

Lemma match_here_None (pattern : Pattern) (s branch : string) :
  match_here pattern s = None ->
  In branch pattern -> branch <> EmptyString -> String.prefix branch s = false.
Proof.
  unfold match_here. intros Hnone Hin Hne.
  pose proof (find_none _ _ Hnone branch Hin) as Hb. cbv beta in Hb.
  destruct branch; [contradiction|]. exact Hb.
Qed.

(** A beginning of what the scan leaves is a beginning of the text, or it
    runs over a place where the scan deleted a branch: then a shorter
    beginning of it stands in the text directly before that branch. *)
Lemma sub_scan_prefix (pattern : Pattern) (s w : string) :
  String.prefix w (sub_scan pattern 0 s) = true ->
  String.prefix w s = true \/
  exists u m,
    String.prefix u w = true /\ String.length u < String.length w /\
    In m pattern /\ m <> EmptyString /\
    String.prefix (u ++ m) s = true /\
    (match_here pattern s = None -> u <> EmptyString).
Proof.
  revert w. induction s as [|c s IH]; intros w Hw; [now left|].
  cbn [sub_scan] in Hw.
  destruct w as [|c' w]; [now left|].
  destruct (match_here pattern (String c s)) as [branch|] eqn:Hm.
  - right. apply match_here_occurs in Hm as (Hin & Hne & Hp).
    exists EmptyString, branch. cbn [String.append String.length].
    repeat split; try assumption; [lia|discriminate].
  - simpl in Hw. destruct (ascii_dec c' c) as [->|]; [|discriminate].
    destruct (IH w Hw) as [Hp|(u & m & Hu & Hlen & Hin & Hne & Hp & _)].
    + left. simpl. destruct (ascii_dec c c); [exact Hp|contradiction].
    + right. exists (String c u), m. cbn [String.append String.length].
      repeat split; try assumption.
      * simpl. destruct (ascii_dec c c); [exact Hu|contradiction].
      * lia.
      * simpl. destruct (ascii_dec c c); [exact Hp|contradiction].
      * discriminate.
Qed.

(** An occurrence in what the scan leaves begins at a character the scan
    copied. *)
Lemma sub_scan_occurrence_start (pattern : Pattern) (w : string) :
  w <> EmptyString ->
  forall s skip, occurs_in w (sub_scan pattern skip s) = true ->
    exists pre rest,
      s = (pre ++ rest)%string /\ match_here pattern rest = None /\
      String.prefix w (sub_scan pattern 0 rest) = true.
Proof.
  intros Hne. induction s as [|c s IH]; intros skip Hocc.
  - apply occurs_in_empty in Hocc. contradiction.
  - assert (Hlater : forall k, occurs_in w (sub_scan pattern k s) = true ->
              exists pre rest,
                String c s = (pre ++ rest)%string /\ match_here pattern rest = None /\
                String.prefix w (sub_scan pattern 0 rest) = true).
    { intros k Hk. destruct (IH k Hk) as (pre & rest & -> & Hnone & Hp).
      now exists (String c pre), rest. }
    cbn [sub_scan] in Hocc. destruct skip as [|k]; [|now apply (Hlater k)].
    destruct (match_here pattern (String c s)) as [branch|] eqn:Hm;
      [now apply (Hlater (String.length branch - 1))|].
    rewrite occurs_in_cons in Hocc. apply orb_true_iff in Hocc as [Hp|Hocc];
      [|now apply (Hlater 0)].
    exists EmptyString, (String c s). split; [reflexivity|]. split; [exact Hm|].
    cbn [sub_scan]. now rewrite Hm.
Qed.

(** A branch occurs in what one pass leaves only where the pass has joined
    a proper beginning of it with what followed a deleted branch. *)
Lemma sub_scan_occurrence (pattern : Pattern) (token s : string) :
  In token pattern -> token <> EmptyString ->
  occurs_in token (sub_scan pattern 0 s) = true ->
  joined_by_removal pattern token s.
Proof.
  intros Hin Hne Hocc.
  destruct (sub_scan_occurrence_start pattern token Hne s 0 Hocc)
    as (pre & rest & -> & Hnone & Hp).
  destruct (sub_scan_prefix pattern rest token Hp)
    as [Hwhole|(u & m & Hu & Hlen & Hm & Hmne & Hum & Hopen)].
  - rewrite (match_here_None pattern rest token Hnone Hin Hne) in Hwhole. discriminate.
  - exists u, m. repeat split; try assumption.
    + unfold proper_prefix. rewrite Hu. apply Nat.ltb_lt in Hlen. rewrite Hlen.
      specialize (Hopen Hnone). destruct u; [contradiction|reflexivity].
    + now apply occurs_in_app_r, prefix_occurs.
Qed.

Lemma clean_subseq_occurrence (pattern : Pattern) (token subseq : string) :
  In token pattern -> token <> EmptyString ->
  occurs_in token (clean_subseq pattern subseq) = true ->
  joined_by_removal pattern token subseq.
Proof.
  intros Hin Hne Hocc. unfold clean_subseq, pattern_sub_empty in Hocc.
  apply occurs_in_strip in Hocc. now apply sub_scan_occurrence.
Qed.






Lemma joined_by_removal_joins (tokens : list string) (token s : string) :
  joined_by_removal tokens token s -> joins tokens token s = true.
Proof.
  intros (u & m & Hu & Hm & Hmne & Hum).
  unfold proper_prefix in Hu. rewrite !andb_true_iff in Hu.
  destruct Hu as [[Hne Hprefix] Hlen]. apply Nat.ltb_lt in Hlen.
  apply prefix_correct in Hprefix.
  assert (Hu : 0 < String.length u) by (destruct u; [discriminate|simpl; lia]).
  unfold joins. apply existsb_exists. exists (String.length u - 1). split.
  - apply in_seq. lia.
  - apply existsb_exists. exists m. split; [exact Hm|].
    replace (S (String.length u - 1)) with (String.length u) by lia.
    rewrite Hprefix, Hum. destruct m; [contradiction|reflexivity].
Qed.

(** Read the other way: strings in which no token stands directly after a
    proper beginning of a token are cleaned of every token. *)
Lemma clean_decoded_batch_nothing_joined (tokenizer : Tokenizer)
    (decoded_batch : list (list string)) :
  forallb plain_text (special_tokens tokenizer) = true ->
  (forall seq subseq token, In seq decoded_batch -> In subseq seq ->
     In token (special_tokens tokenizer) ->
     joins (special_tokens tokenizer) token subseq = false) ->
  free_of_tokens (special_tokens tokenizer)
    (clean_decoded_batch decoded_batch (cleaning_pattern tokenizer)).
Proof.
  intros Hplain Hnone seq s token Hseq Hs Htoken Hne.
  rewrite (cleaning_pattern_plain _ Hplain) in Hseq.
  unfold clean_decoded_batch in Hseq. apply in_map_iff in Hseq as (seq0 & <- & Hseq0).
  apply clean_seq_In in Hs as [(subseq & Hsub & ->) _].
  destruct (occurs_in token (clean_subseq (special_tokens tokenizer) subseq)) eqn:Hocc;
    [|reflexivity].
  apply (clean_subseq_occurrence _ _ _ Htoken Hne), joined_by_removal_joins in Hocc.
  now rewrite (Hnone seq0 subseq token Hseq0 Hsub Htoken) in Hocc.
Qed.

(** So for texts with a stray [<] that no token follows. *)
Lemma clean_decoded_batch_stray_opener :
  free_of_tokens (special_tokens BartLike.tokenizer)
    (clean_decoded_batch [["<s>2 < 3"; "<pad>"]] (cleaning_pattern BartLike.tokenizer)).
Proof.
  apply clean_decoded_batch_nothing_joined; [reflexivity|].
  intros seq subseq token [<-|[]] [<-|[<-|[]]] [<-|[<-|[<-|[]]]]; reflexivity.
Qed.

Lemma lookup_In {A : Type} (key : string) (d : list (string * A)) (v : A) :
  lookup key d = Some v -> In (key, v) d.
Proof.
  induction d as [|[k w] d IH]; simpl; [discriminate|].
  destruct (String.eqb k key) eqn:E.
  - apply String.eqb_eq in E. intros [= <-]. left. now subst.
  - intros Hl. right. now apply IH.
Qed.

Lemma mapM_length {A B : Type} (f : A -> result B) (l : list A) (bs : list B) :
  mapM f l = Ok bs -> List.length bs = List.length l.
Proof. intros Hm. apply mapM_Forall2, Forall2_length in Hm. now symmetry. Qed.

Lemma all_ids_length (values : list cell) (seqs : list (list Z)) :
  all_ids values = Some seqs -> List.length seqs = List.length values.
Proof.
  revert seqs. induction values as [|v values IH]; simpl; intros seqs.
  - now intros [= <-].
  - destruct v as [s|l|]; try discriminate.
    destruct (all_ids values) as [seqs'|]; [|discriminate].
    simpl. intros [= <-]. simpl. now rewrite (IH seqs').
Qed.

(** A tensor of a collated mini-batch has one row per example of the
    group. *)
Lemma collate_getitem_rows (columns : list string) (group : list Row) (batch : Batch)
    (name : string) (t : Tensor Z) :
  collate columns group = Ok batch ->
  batch_getitem batch name = Ok t ->
  nrows t = List.length group.
Proof.
  intros Hc Hget. unfold batch_getitem in Hget.
  destruct (lookup name batch) as [[t'|values]|] eqn:Hl; try discriminate.
  injection Hget as ->. apply lookup_In in Hl.
  unfold collate in Hc. apply mapM_Forall2 in Hc.
  destruct (Forall2_In_r _ _ _ _ Hc Hl) as (column & _ & Hcol). cbv beta in Hcol.
  apply bind_Ok in Hcol as (values & Hvalues & Hcol).
  apply bind_Ok in Hcol as (v & Hv & Hcol). injection Hcol as _ ->.
  apply mapM_length in Hvalues.
  unfold collate_column in Hv.
  destruct (all_ids values) as [seqs|] eqn:Hids; [|discriminate].
  apply all_ids_length in Hids.
  case_if Hv; [|discriminate]. injection Hv as <-.
  unfold tensor_of_rows, Row in *. simpl. lia.
Qed.


Lemma Forall2_map_l {A B C : Type} (f : A -> B) (R : B -> C -> Prop)
    (l : list A) (l' : list C) :
  Forall2 R (map f l) l' -> Forall2 (fun a c => R (f a) c) l l'.
Proof.
  revert l'. induction l as [|a l IH]; intros l' HR; inversion HR; subst; constructor; auto.
Qed.

Lemma Forall2_concat_length {A B : Type} (R : list A -> list B -> Prop)
    (l : list (list A)) (l' : list (list B)) :
  (forall x y, In x l -> R x y -> List.length y = List.length x) ->
  Forall2 R l l' ->
  List.length (List.concat l') = List.length (List.concat l).
Proof.
  intros Hlen HR. induction HR as [|x y l l' Hxy Hrest IH]; [reflexivity|].
  simpl. rewrite !length_app, (Hlen x y); [|now left|assumption].
  rewrite IH; [reflexivity|]. intros x' y' Hin. apply Hlen. now right.
Qed.

(** A run of the loop over collated groups that ends without exception
    yields as many tuples as the groups hold examples. *)
Lemma predict_loop_count {F : Type} `{Score F}
    (model : Model F) (tokenizer : Tokenizer) (input_ids_name : string)
    (pad_id : Z) (pattern : Pattern) (columns : list string) (groups : list (list Row)) :
  (forall group, In group groups -> group <> []) ->
  (forall batch input_ids start_logits end_logits,
     In (Ok batch) (map (collate columns) groups) ->
     batch_getitem batch input_ids_name = Ok input_ids ->
     model batch = Ok (start_logits, end_logits) ->
     same_shape input_ids start_logits end_logits) ->
  raised (predict_loop (predict_batch model tokenizer input_ids_name pad_id pattern)
                       (map (collate columns) groups)) = None ->
  List.length (yielded (predict_loop
                          (predict_batch model tokenizer input_ids_name pad_id pattern)
                          (map (collate columns) groups))) =
  List.length (List.concat groups).
Proof.
  intros Hgroups Hshape Hdone.
  destruct (predict_loop_complete _ _ Hdone) as (tuples_of & Hall & ->).
  apply Forall2_map_l in Hall.
  eapply Forall2_concat_length; [|exact Hall].
  intros group tuples Hgroup Hstep. cbv beta in Hstep.
  destruct Hstep as (batch & Hcollate & Hstep).
  assert (Hin : In (Ok batch) (map (collate columns) groups)).
  { rewrite <- Hcollate. now apply in_map. }
  pose proof Hstep as Hrun. unfold predict_batch in Hrun.
  apply bind_Ok in Hrun as ([start_logits end_logits] & Hmodel & Hrun).
  apply bind_Ok in Hrun as (input_ids & Hids & _).
  pose proof (collate_getitem_rows columns group batch input_ids_name _ Hcollate Hids)
    as Hrows.
  assert (Hn : nrows input_ids <> 0).
  { specialize (Hgroups group Hgroup). destruct group; [contradiction|].
    rewrite Hrows. discriminate. }
  now rewrite (predict_batch_one_tuple_per_example _ _ _ _ _ _ _ _ _ _
                 Hmodel Hids (Hshape _ _ _ _ Hin Hids Hmodel) Hn Hstep).
Qed.

(** X11: a run of get_predictions that ends without exception over a
    torch-formatted loader, with a model whose scores have the shape of the
    input ids, yields exactly one tuple per example of the loader's
    dataset. *)
Theorem get_predictions_one_tuple_per_example {F : Type} `{Score F}
    (model : Model F) (data_loader : DataLoader) (tokenizer : Tokenizer)
    (input_ids_name : string) (columns : list string) :
  format_columns (dl_dataset data_loader) = Some columns ->
  (0 < dl_batch_size data_loader)%Z ->
  (forall batch input_ids start_logits end_logits,
     In (Ok batch) (DataLoader_iter data_loader) ->
     batch_getitem batch input_ids_name = Ok input_ids ->
     model batch = Ok (start_logits, end_logits) ->
     same_shape input_ids start_logits end_logits) ->
  raised (get_predictions model data_loader tokenizer input_ids_name) = None ->
  List.length (yielded (get_predictions model data_loader tokenizer input_ids_name)) =
  List.length (rows (dl_dataset data_loader)).
Proof.
  intros Hformat Hsize Hshape Hdone. unfold get_predictions in *.
  unfold DataLoader_iter in *. rewrite Hformat in *.
  assert (Hgroups : forall group, In group (DataLoader_groups data_loader) -> group <> []).
  { intros group Hgroup. unfold DataLoader_groups in Hgroup.
    assert (Hb : 0 < Z.to_nat (dl_batch_size data_loader)) by lia.
    exact (chunks_not_nil _ _ _ Hb Hgroup). }
  rewrite (predict_loop_count _ _ _ _ _ _ _ Hgroups Hshape Hdone).
  unfold DataLoader_groups. apply f_equal, concat_chunks. lia.
Qed.

Lemma get_predictions_one_tuple_per_example_witness :
  List.length (yielded (get_predictions (BartLike.pointing_model 4 4) one_batch_loader
                                        BartLike.tokenizer "input_ids")) =
  List.length (rows (dl_dataset one_batch_loader)).
Proof.
  apply (@get_predictions_one_tuple_per_example Z _ (BartLike.pointing_model 4 4)
           one_batch_loader BartLike.tokenizer "input_ids" ["input_ids"]).
  - reflexivity.
  - reflexivity.
  - intros batch input_ids start_logits end_logits Hin Hids Hmodel.
    unfold BartLike.pointing_model in Hmodel. rewrite Hids in Hmodel.
    cbn [bind] in Hmodel. injection Hmodel as <- <-. split; reflexivity.
  - vm_compute. reflexivity.
Defined.



(** ** [tokenize_dataset]: what a successful call built *)

Lemma chunks_length {A : Type} (n : nat) (l : list A) : 0 < n ->
  List.length (chunks n l) = (List.length l + n - 1) / n.
Proof.
  intros Hn. remember (List.length l) as m eqn:Hm.
  revert l Hm. induction m as [m IH] using lt_wf_ind. intros l Hm.
  destruct l as [|x l].
  - simpl in Hm. subst m. cbn. symmetry. apply Nat.div_small. lia.
  - rewrite (chunks_cons _ _ _ Hn). cbn [List.length].
    rewrite (IH (List.length (skipn n (x :: l)))); [| |reflexivity].
    + rewrite length_skipn. cbn [List.length] in *. subst m.
      destruct (Nat.le_gt_cases (S (List.length l)) n) as [Hle|Hgt].
      * replace (S (List.length l) - n) with 0 by lia.
        rewrite (Nat.div_small (0 + n - 1) n) by lia.
        apply (Nat.div_unique _ _ _ (List.length l)); lia.
      * replace (S (List.length l) + n - 1)
          with ((S (List.length l) - n + n - 1) + 1 * n) by lia.
        rewrite Nat.div_add by lia. lia.
    + rewrite length_skipn. subst m. cbn [List.length]. lia.
Qed.

(** What a call that returned a data loader went through. *)
Lemma tokenize_dataset_Ok (dataset : Dataset) (text_col_names : list string)
    (tokenizer : Tokenizer) (batch_size : Z) (max_seq_length : option Z)
    (remove_old_cols : bool) (data_loader : DataLoader) (world : World) :
  tokenize_dataset dataset text_col_names tokenizer batch_size max_seq_length
                   remove_old_cols = (Ok data_loader, world) ->
  exists dummy written,
    encode tokenizer (model_max_length tokenizer) [OneText "Dummy text"] no_kwargs
      = inr dummy /\
    (0 < batch_size)%Z /\
    Forall2 (fun batch rows_out =>
               (enc <- tok_func (set_model_max_length tokenizer max_seq_length)
                                (features dataset) text_col_names batch ;;
                merge_batch (kept_columns dataset remove_old_cols) batch enc)
               = Ok rows_out)
            (chunks (Z.to_nat batch_size) (rows dataset)) written /\
    rows (dl_dataset data_loader) = List.concat written /\
    format_columns (dl_dataset data_loader) = Some (keys dummy) /\
    dl_batch_size data_loader = batch_size.
Proof.
  intros Hrun. unfold tokenize_dataset in Hrun.
  destruct (tokenizer_call tokenizer [OneText "Dummy text"] no_kwargs) as [dummy|e] eqn:Hdummy;
    [|discriminate].
  apply tokenizer_call_Ok in Hdummy.
  destruct (names_clash text_col_names (keys dummy)); [discriminate|].
  injection Hrun as Hrun _.
  apply bind_Ok in Hrun as (mapped & Hmapped & Hrun).
  apply bind_Ok in Hrun as (formatted & Hformatted & Hrun).
  unfold DataLoader_new in Hrun.
  destruct (batch_size <=? 0)%Z eqn:Hsize; [discriminate|]. injection Hrun as <-.
  unfold Dataset_set_format in Hformatted.
  case_if Hformatted; [|discriminate]. injection Hformatted as <-.
  unfold Dataset_map in Hmapped.
  apply bind_Ok in Hmapped as (written & Hwritten & Hmapped).
  case_if Hmapped; [|discriminate]. injection Hmapped as <-.
  unfold map_batches in Hwritten. rewrite Hsize in Hwritten.
  apply Z.leb_gt in Hsize. apply mapM_Forall2 in Hwritten.
  exists dummy, written. cbn [dl_dataset dl_batch_size rows format_columns].
  repeat split; try assumption; reflexivity.
Qed.

Lemma merge_batch_length (kept : list string) (batch : list Row) (enc : BatchEncoding)
    (written : list Row) :
  (forall name seqs, In (name, seqs) enc -> List.length seqs = List.length batch) ->
  merge_batch kept batch enc = Ok written ->
  List.length written = List.length batch.
Proof.
  intros Hcount. unfold merge_batch.
  assert (Hsize : encoding_size enc (List.length batch) = List.length batch).
  { destruct enc as [|[nm seqs] enc]; [reflexivity|]. simpl.
    apply (Hcount nm). left. reflexivity. }
  rewrite Hsize.
  destruct (negb (forallb _ enc)); [discriminate|].
  destruct (negb (is_nil kept) && _); [discriminate|].
  intros [= <-]. now rewrite length_map, length_seq.
Qed.

(** One batch of the mapping, with one sequence per example: one row is
    written per example. *)
Lemma mapped_batch_length (tokenizer : Tokenizer) (max_seq_length : option Z)
    (dataset_features text_col_names kept : list string)
    (batch written : list Row) :
  one_per_example tokenizer ->
  (enc <- tok_func (set_model_max_length tokenizer max_seq_length)
                   dataset_features text_col_names batch ;;
   merge_batch kept batch enc) = Ok written ->
  List.length written = List.length batch.
Proof.
  intros Hone Hw.
  destruct (mapped_batch_call _ _ _ _ _ _ _ Hw) as (text_cols & enc & Hcols & Henc & Hmerge).
  apply (merge_batch_length kept batch enc); [|exact Hmerge].
  exact (encoding_counts _ _ _ _ _ _ _ _ Hone Hcols Henc).
Qed.

(** A successful call writes one example per example of the input. *)
Lemma tokenize_dataset_rows_length
    (dataset : Dataset) (text_col_names : list string) (tokenizer : Tokenizer)
    (batch_size : Z) (max_seq_length : option Z) (remove_old_cols : bool)
    (data_loader : DataLoader) (world : World) :
  one_per_example tokenizer ->
  tokenize_dataset dataset text_col_names tokenizer batch_size max_seq_length
                   remove_old_cols = (Ok data_loader, world) ->
  List.length (rows (dl_dataset data_loader)) = List.length (rows dataset).
Proof.
  intros Hone Hrun.
  destruct (tokenize_dataset_Ok _ _ _ _ _ _ _ _ Hrun)
    as (dummy & written & _ & Hsize & Hwritten & Hrows & _ & _).
  assert (Hb : 0 < Z.to_nat batch_size) by lia.
  rewrite Hrows.
  rewrite <- (concat_chunks (Z.to_nat batch_size) (rows dataset) Hb).
  eapply Forall2_concat_length; [|exact Hwritten].
  intros batch rows_out _ Hw. cbv beta in Hw.
  exact (mapped_batch_length _ _ _ _ _ _ _ Hone Hw).
Qed.








(** X13: with a tokenizer that returns one sequence per example, a
    successful tokenize_dataset loses and adds no example: the loader's
    dataset has as many examples as the input dataset, and iterating the
    loader gives ceil(n / batch_size) mini-batches. *)
Theorem tokenize_dataset_keeps_every_example
    (dataset : Dataset) (text_col_names : list string) (tokenizer : Tokenizer)
    (batch_size : Z) (max_seq_length : option Z) (remove_old_cols : bool)
    (data_loader : DataLoader) (world : World) :
  one_per_example tokenizer ->
  tokenize_dataset dataset text_col_names tokenizer batch_size max_seq_length
                   remove_old_cols = (Ok data_loader, world) ->
  List.length (rows (dl_dataset data_loader)) = List.length (rows dataset) /\
  List.length (DataLoader_iter data_loader) =
    (List.length (rows dataset) + Z.to_nat batch_size - 1) / Z.to_nat batch_size.
Proof.
  intros Hcontract Hrun.
  pose proof (tokenize_dataset_rows_length _ _ _ _ _ _ _ _ Hcontract Hrun) as Hlen.
  destruct (tokenize_dataset_Ok _ _ _ _ _ _ _ _ Hrun)
    as (dummy & written & _ & Hsize & _ & _ & Hformat & Hbatch).
  split; [exact Hlen|].
  unfold DataLoader_iter. rewrite Hformat, length_map.
  unfold DataLoader_groups. rewrite Hbatch, chunks_length by lia.
  now rewrite Hlen.
Qed.

Lemma tokenize_dataset_keeps_every_example_witness :
  exists data_loader world,
    tokenize_dataset three_examples ["question"; "context"] BartLike.tokenizer
                     2 (Some 12%Z) true = (Ok data_loader, world) /\
    List.length (rows (dl_dataset data_loader)) = List.length (rows three_examples) /\
    List.length (DataLoader_iter data_loader) =
      (List.length (rows three_examples) + Z.to_nat 2 - 1) / Z.to_nat 2.
Proof.
  destruct (tokenize_dataset three_examples ["question"; "context"] BartLike.tokenizer
                             2 (Some 12%Z) true) as [[data_loader|e] world] eqn:E.
  - exists data_loader, world. split; [reflexivity|].
    exact (tokenize_dataset_keeps_every_example _ _ _ _ _ _ _ _
             BartLikeFacts.tokenizer_one_per_example E).
  - vm_compute in E. discriminate.
Defined.

Lemma Dataset_set_format_Ok (dataset formatted : Dataset) (columns : list string) :
  Dataset_set_format dataset columns = Ok formatted ->
  (forall name, In name columns -> In name (features dataset)) /\
  formatted = {| features := features dataset; rows := rows dataset;
                 format_columns := Some columns |}.
Proof.
  unfold Dataset_set_format. destruct (forallb _ columns) eqn:E; [|discriminate].
  intros [= <-]. split; [|reflexivity].
  intros name Hin. rewrite forallb_forall in E. apply mem_In. now apply E.
Qed.

(** The line that changes a dataset in place touches the caller's dataset
    exactly when [map] handed that dataset back. *)
Lemma tokenize_dataset_caller_dataset
    (dataset : Dataset) (text_col_names : list string) (tokenizer : Tokenizer)
    (batch_size : Z) (max_seq_length : option Z) (remove_old_cols : bool) :
  let world := snd (tokenize_dataset dataset text_col_names tokenizer batch_size
                                     max_seq_length remove_old_cols) in
  the_dataset world = dataset \/
  exists dummy,
    tokenizer_call tokenizer [OneText "Dummy text"] no_kwargs = Ok dummy /\
    map_returns_self dataset (if remove_old_cols then Some (features dataset) else None)
      = true /\
    Dataset_set_format dataset (keys dummy) = Ok (the_dataset world).
Proof.
  cbv zeta. unfold tokenize_dataset.
  destruct (tokenizer_call tokenizer [OneText "Dummy text"] no_kwargs) as [dummy|e];
    [|now left].
  destruct (names_clash text_col_names (keys dummy)); [now left|].
  cbn [snd the_dataset].
  destruct (map_returns_self dataset _) eqn:Hself; [|now left].
  destruct (Dataset_set_format dataset (keys dummy)) as [formatted|e] eqn:Hformat;
    [|now left].
  right. now exists dummy.
Qed.

(** X14: what tokenize_dataset does to the objects it is handed.  Of the
    tokenizer it changes at most model_max_length, and once the dummy call
    has answered and the column names have passed the check the tokenizer
    is left with model_max_length = max_seq_length, also when the call then
    raises.  Of the dataset it changes at most the format, never the
    columns or the examples, and it changes nothing when the dataset has an
    example, when remove_old_cols is True and the dataset has a column, or
    when the tokenizer produces a column the dataset does not have. *)
Theorem tokenize_dataset_side_effects
    (dataset : Dataset) (text_col_names : list string) (tokenizer : Tokenizer)
    (batch_size : Z) (max_seq_length : option Z) (remove_old_cols : bool) :
  let world := snd (tokenize_dataset dataset text_col_names tokenizer batch_size
                                     max_seq_length remove_old_cols) in
  (the_tokenizer world = tokenizer \/
   the_tokenizer world = set_model_max_length tokenizer max_seq_length) /\
  (forall dummy,
     tokenizer_call tokenizer [OneText "Dummy text"] no_kwargs = Ok dummy ->
     names_clash text_col_names (keys dummy) = false ->
     model_max_length (the_tokenizer world) = max_seq_length) /\
  (features (the_dataset world) = features dataset /\
   rows (the_dataset world) = rows dataset) /\
  (rows dataset <> [] -> the_dataset world = dataset) /\
  (remove_old_cols = true -> features dataset <> [] -> the_dataset world = dataset) /\
  (forall dummy name,
     tokenizer_call tokenizer [OneText "Dummy text"] no_kwargs = Ok dummy ->
     In name (keys dummy) -> ~ In name (features dataset) ->
     the_dataset world = dataset).
Proof.
  pose proof (tokenize_dataset_caller_dataset dataset text_col_names tokenizer batch_size
                max_seq_length remove_old_cols) as Hdataset.
  cbv zeta in *.
  split; [|split].
  - unfold tokenize_dataset.
    destruct (tokenizer_call tokenizer [OneText "Dummy text"] no_kwargs) as [dummy|e];
      [|now left].
    destruct (names_clash text_col_names (keys dummy)); [now left|now right].
  - intros dummy Hdummy Hclash. unfold tokenize_dataset. now rewrite Hdummy, Hclash.
  - destruct Hdataset as [->|(dummy & Hdummy & Hself & Hformat)].
    + repeat split; auto.
    + apply Dataset_set_format_Ok in Hformat as [Hcolumns Hformat].
      unfold map_returns_self in Hself. apply andb_true_iff in Hself as [Hrows Hremove].
      repeat split.
      * now rewrite Hformat.
      * now rewrite Hformat.
      * intros Hne. destruct (rows dataset); [contradiction|discriminate].
      * intros -> Hfeatures. destruct (features dataset); [contradiction|discriminate].
      * intros dummy' name Hdummy' Hin Hnot. rewrite Hdummy in Hdummy'.
        injection Hdummy' as <-. exfalso. apply Hnot. now apply Hcolumns.
Qed.

(** The case left: a dataset without examples that has the tokenizer's
    columns already.  With remove_old_cols = False the mapping returns the
    caller's dataset, and line 112 sets its format. *)
Lemma tokenize_dataset_formats_caller_dataset :
  the_dataset (snd (tokenize_dataset tokenized_no_examples ["question"; "context"]
                                     BartLike.tokenizer 8 (Some 256%Z) false))
  = {| features := ["question"; "context"; "input_ids"; "attention_mask"];
       rows := [];
       format_columns := Some ["input_ids"; "attention_mask"] |}.
Proof. vm_compute. reflexivity. Qed.

(** ** [tokenize_dataset]: errors after the check *)

Lemma column_values_missing (dataset_features : list string) (batch : list Row)
    (text_col_names : list string) :
  (exists name, In name text_col_names /\ ~ In name dataset_features) ->
  exists key,
    In key text_col_names /\ ~ In key dataset_features /\
    mapM (column_values dataset_features batch) text_col_names = Raise (KeyError key).
Proof.
  induction text_col_names as [|name names IH]; intros (missing & Hin & Hmiss);
    [destruct Hin|].
  cbn [mapM]. unfold column_values at 1.
  destruct (mem name dataset_features) eqn:Hmem.
  - assert (Hname : In name dataset_features) by now apply mem_In.
    destruct Hin as [->|Hin]; [contradiction|].
    destruct IH as (key & Hk & Hnot & Hraise); [now exists missing|].
    exists key. split; [now right|]. split; [exact Hnot|].
    cbn [bind]. now rewrite Hraise.
  - exists name. split; [now left|]. split; [|reflexivity].
    intros Hname. apply mem_In in Hname. congruence.
Qed.

Lemma map_batches_cons {A : Type} (batch_size : Z) (x : A) (l : list A) :
  exists first others, map_batches batch_size (x :: l) = first :: others.
Proof.
  unfold map_batches. destruct (batch_size <=? 0)%Z eqn:Hsize.
  - now exists (x :: l), [].
  - apply Z.leb_gt in Hsize. rewrite chunks_cons by lia. eauto.
Qed.

(** X15: on a dataset with at least one example, when the column names
    pass the check but one of them is not a column of the dataset,
    tokenize_dataset raises KeyError for a name of text_col_names that the
    dataset lacks. *)
Theorem tokenize_dataset_missing_column
    (dataset : Dataset) (text_col_names : list string) (tokenizer : Tokenizer)
    (batch_size : Z) (max_seq_length : option Z) (remove_old_cols : bool)
    (dummy : BatchEncoding) :
  tokenizer_call tokenizer [OneText "Dummy text"] no_kwargs = Ok dummy ->
  names_clash text_col_names (keys dummy) = false ->
  rows dataset <> [] ->
  (exists name, In name text_col_names /\ ~ In name (features dataset)) ->
  exists key,
    In key text_col_names /\ ~ In key (features dataset) /\
    fst (tokenize_dataset dataset text_col_names tokenizer batch_size
                          max_seq_length remove_old_cols) = Raise (KeyError key).
Proof.
  intros Hdummy Hclash Hrows Hmissing.
  unfold tokenize_dataset. rewrite Hdummy, Hclash. cbn [fst].
  destruct (rows dataset) as [|r rs] eqn:Hr; [contradiction|].
  destruct (map_batches_cons batch_size r rs) as (first & others & Hbatches).
  destruct (column_values_missing (features dataset) first text_col_names Hmissing)
    as (key & Hk & Hnot & Hraise).
  exists key. split; [exact Hk|]. split; [exact Hnot|].
  unfold Dataset_map. rewrite Hr, Hbatches. cbn [mapM].
  unfold tok_func at 1. rewrite Hraise. reflexivity.
Qed.

Lemma tokenize_dataset_missing_column_witness :
  exists key,
    In key ["question"; "title"] /\ ~ In key (features three_examples) /\
    fst (tokenize_dataset three_examples ["question"; "title"] BartLike.tokenizer
                          2 (Some 12%Z) true) = Raise (KeyError key).
Proof.
  destruct (tokenizer_call BartLike.tokenizer [OneText "Dummy text"] no_kwargs)
    as [dummy|e] eqn:E; [|vm_compute in E; discriminate].
  apply (tokenize_dataset_missing_column three_examples ["question"; "title"]
           BartLike.tokenizer 2 (Some 12%Z) true dummy E).
  - vm_compute in E. injection E as <-. reflexivity.
  - discriminate.
  - exists "title". split; [right; left; reflexivity|].
    intros [Heq|[Heq|[]]]; discriminate.
Defined.

Lemma filter_none {A : Type} (keep : A -> bool) (l : list A) :
  (forall x, In x l -> keep x = false) -> filter keep l = [].
Proof.
  induction l as [|x l IH]; intros Hall; [reflexivity|]. simpl.
  rewrite (Hall x (or_introl eq_refl)). apply IH. intros y Hy. apply Hall. now right.
Qed.

Lemma kept_columns_remove_all (dataset : Dataset) : kept_columns dataset true = [].
Proof.
  unfold kept_columns. apply filter_none. intros name Hin.
  apply negb_false_iff. now apply mem_In.
Qed.

Lemma keys_encoding_row (enc : BatchEncoding) (k : nat) :
  keys (encoding_row enc k) = keys enc.
Proof.
  unfold keys, encoding_row. rewrite map_map. apply map_ext. now intros [name seqs].
Qed.

(** X16: with remove_old_cols = True and a tokenizer that returns the
    same columns on every call, every example of the dataset behind the
    returned loader holds exactly the tokenizer's columns: none of the old
    columns is left. *)
Theorem tokenize_dataset_removes_old_columns
    (dataset : Dataset) (text_col_names : list string) (tokenizer : Tokenizer)
    (batch_size : Z) (max_seq_length : option Z)
    (data_loader : DataLoader) (world : World) (dummy : BatchEncoding) :
  fixed_columns tokenizer ->
  tokenizer_call tokenizer [OneText "Dummy text"] no_kwargs = Ok dummy ->
  tokenize_dataset dataset text_col_names tokenizer batch_size max_seq_length true
    = (Ok data_loader, world) ->
  forall r, In r (rows (dl_dataset data_loader)) -> keys r = keys dummy.
Proof.
  intros Hcontract Hdummy Hrun r Hr.
  apply tokenizer_call_Ok in Hdummy.
  destruct (tokenize_dataset_Ok _ _ _ _ _ _ _ _ Hrun)
    as (dummy' & written & _ & _ & Hwritten & Hrows & _ & _).
  rewrite Hrows in Hr. apply in_concat in Hr as (rows_out & Hout & Hr).
  destruct (Forall2_In_r _ _ _ _ Hwritten Hout) as (batch & _ & Hw). cbv beta in Hw.
  destruct (mapped_batch_call _ _ _ _ _ _ _ Hw) as (text_cols & enc & _ & Henc & Hmerge).
  rewrite kept_columns_remove_all in Hmerge. unfold merge_batch in Hmerge.
  destruct (negb (forallb _ enc)); [discriminate|]. cbn [is_nil negb andb] in Hmerge.
  injection Hmerge as <-.
  apply in_map_iff in Hr as (k & <- & _).
  rewrite filter_none by (intros [name v] _; reflexivity).
  cbn [app]. rewrite keys_encoding_row.
  exact (Hcontract _ _ _ _ _ _ _ _ Henc Hdummy).
Qed.

Lemma tokenize_dataset_removes_old_columns_witness :
  exists data_loader world dummy,
    tokenize_dataset three_examples ["question"; "context"] BartLike.tokenizer
                     2 (Some 12%Z) true = (Ok data_loader, world) /\
    tokenizer_call BartLike.tokenizer [OneText "Dummy text"] no_kwargs = Ok dummy /\
    forall r, In r (rows (dl_dataset data_loader)) -> keys r = keys dummy.
Proof.
  destruct (tokenize_dataset three_examples ["question"; "context"] BartLike.tokenizer
                             2 (Some 12%Z) true) as [[data_loader|e] world] eqn:E;
    [|vm_compute in E; discriminate].
  destruct (tokenizer_call BartLike.tokenizer [OneText "Dummy text"] no_kwargs)
    as [dummy|e] eqn:D; [|vm_compute in D; discriminate].
  exists data_loader, world, dummy. split; [reflexivity|]. split; [reflexivity|].
  exact (tokenize_dataset_removes_old_columns _ _ _ _ _ _ _ _
           BartLikeFacts.tokenizer_fixed_columns D E).
Defined.

(** X17: on a dataset without examples, with remove_old_cols = True, the
    mapping leaves a dataset without columns, so that set_format finds none
    of the tokenizer's columns: when the column names pass the check and
    the tokenizer produces at least one column, tokenize_dataset raises the
    ValueError of set_format. *)
Theorem tokenize_dataset_empty_dataset_raises
    (dataset : Dataset) (text_col_names : list string) (tokenizer : Tokenizer)
    (batch_size : Z) (max_seq_length : option Z) (dummy : BatchEncoding) :
  tokenizer_call tokenizer [OneText "Dummy text"] no_kwargs = Ok dummy ->
  names_clash text_col_names (keys dummy) = false ->
  rows dataset = [] ->
  keys dummy <> [] ->
  fst (tokenize_dataset dataset text_col_names tokenizer batch_size max_seq_length true)
  = Raise (ValueError (ColumnsNotInDataset (keys dummy))).
Proof.
  intros Hdummy Hclash Hrows Hkeys.
  unfold tokenize_dataset. rewrite Hdummy, Hclash. cbn [fst].
  unfold Dataset_map. rewrite Hrows.
  assert (Hnone : forall A (l : list (list A)), l = [] ->
            map_batches batch_size (@nil A) = []).
  { intros A l _. unfold map_batches. now destruct (batch_size <=? 0)%Z. }
  rewrite (Hnone _ [] eq_refl). cbn [mapM bind List.concat forallb].
  fold (kept_columns dataset true). rewrite kept_columns_remove_all.
  unfold Dataset_set_format. cbn [features].
  destruct (keys dummy) as [|name names]; [contradiction|]. reflexivity.
Qed.

Lemma tokenize_dataset_empty_dataset_raises_witness :
  fst (tokenize_dataset (BartLike.qa_dataset []) ["question"; "context"]
                        BartLike.tokenizer 8 (Some 256%Z) true)
  = Raise (ValueError (ColumnsNotInDataset ["input_ids"; "attention_mask"])).
Proof.
  apply (tokenize_dataset_empty_dataset_raises (BartLike.qa_dataset [])
           ["question"; "context"] BartLike.tokenizer 8 (Some 256%Z)
           [("input_ids", [[0; 72; 121; 113; 113; 125; 36; 120; 105; 124; 120; 2]]);
            ("attention_mask", [[1; 1; 1; 1; 1; 1; 1; 1; 1; 1; 1; 1]])]%Z).
  - reflexivity.
  - reflexivity.
  - reflexivity.
  - discriminate.
Defined.

(** ** Command line and the data loader of [main] *)

Lemma check_positive_int_Ok (input_int v : Z) :
  check_positive_int input_int = Ok v <-> (v = input_int /\ (0 < input_int)%Z).
Proof.
  unfold check_positive_int. destruct (input_int <=? 0)%Z eqn:E.
  - apply Z.leb_le in E. split; [discriminate|lia].
  - apply Z.leb_gt in E. split.
    + intros [= <-]. auto.
    + intros [-> _]. reflexivity.
Qed.

Lemma argparse_option_Ok (given : option Z) (default v : Z) :
  (0 < default)%Z ->
  match given with
  | Some x => argparse_type (check_positive_int x)
  | None => Ok default
  end = Ok v ->
  v = option_or_default given default /\ (0 < v)%Z.
Proof.
  intros Hd. destruct given as [x|]; cbn [option_or_default].
  - unfold argparse_type. destruct (check_positive_int x) as [y|e] eqn:E.
    + intros [= <-]. apply check_positive_int_Ok in E. destruct E as [-> ?]. auto.
    + destruct e; try discriminate.
  - intros [= <-]. auto.
Qed.

(** What a returned namespace holds. *)
Lemma get_qa_args_Ok (dataset_arg : string) (text_col_args : list string)
    (max_seq_length_arg batch_size_arg : option Z) (ns : Namespace) :
  get_qa_args dataset_arg text_col_args max_seq_length_arg batch_size_arg = Ok ns ->
  text_col_args <> [] /\
  ns_text_col_names ns = text_col_args /\
  ns_max_seq_length ns = option_or_default max_seq_length_arg 256 /\
  ns_batch_size ns = option_or_default batch_size_arg 8 /\
  (0 < ns_max_seq_length ns)%Z /\ (0 < ns_batch_size ns)%Z.
Proof.
  unfold get_qa_args. destruct text_col_args as [|name names]; [discriminate|].
  cbn [is_nil]. intros Hns.
  apply bind_Ok in Hns as (m & Hm & Hns). apply bind_Ok in Hns as (b & Hb & Hns).
  injection Hns as <-. cbn.
  apply argparse_option_Ok in Hm as [-> Hmpos]; [|lia].
  apply argparse_option_Ok in Hb as [-> Hbpos]; [|lia].
  repeat split; try assumption. discriminate.
Qed.

(** X18: whenever get_qa_args returns a namespace, at least one text
    column name was given and each of --max-seq-length and --batch-size
    that was given is positive; the namespace holds the given column names
    and the given values or the defaults 256 and 8, so both numbers are
    positive. *)
Theorem get_qa_args_namespace (dataset_arg : string) (text_col_args : list string)
    (max_seq_length_arg batch_size_arg : option Z) (ns : Namespace) :
  get_qa_args dataset_arg text_col_args max_seq_length_arg batch_size_arg = Ok ns ->
  text_col_args <> [] /\
  positive_if_given max_seq_length_arg /\ positive_if_given batch_size_arg /\
  ns_text_col_names ns = text_col_args /\
  ns_max_seq_length ns = option_or_default max_seq_length_arg 256 /\
  ns_batch_size ns = option_or_default batch_size_arg 8 /\
  (0 < ns_max_seq_length ns)%Z /\ (0 < ns_batch_size ns)%Z.
Proof.
  intros Hns.
  destruct (get_qa_args_Ok _ _ _ _ _ Hns) as (Hne & Hnames & Hm & Hb & Hmpos & Hbpos).
  split; [exact Hne|].
  split; [intros v ->; cbn [option_or_default] in *; lia|].
  split; [intros v ->; cbn [option_or_default] in *; lia|].
  auto.
Qed.

Lemma get_qa_args_namespace_witness :
  exists ns,
    get_qa_args "data.jsonl" ["question"; "context"] None (Some 2%Z) = Ok ns /\
    ["question"; "context"] <> [] /\
    positive_if_given None /\ positive_if_given (Some 2%Z) /\
    ns_text_col_names ns = ["question"; "context"] /\
    ns_max_seq_length ns = option_or_default None 256 /\
    ns_batch_size ns = option_or_default (Some 2%Z) 8 /\
    (0 < ns_max_seq_length ns)%Z /\ (0 < ns_batch_size ns)%Z.
Proof.
  eexists. split; [reflexivity|].
  exact (get_qa_args_namespace "data.jsonl" ["question"; "context"] None (Some 2%Z) _
           eq_refl).
Defined.

Lemma bind_raises_only {A B : Type} (P : exn -> Prop) (r : result A) (k : A -> result B) :
  raises_only P r -> (forall a, raises_only P (k a)) -> raises_only P (bind r k).
Proof.
  intros Hr Hk e. destruct r as [a|e']; simpl.
  - apply Hk.
  - intros [= <-]. now apply Hr.
Qed.

Lemma mapM_raises_only {A B : Type} (P : exn -> Prop) (f : A -> result B) (l : list A) :
  (forall a, raises_only P (f a)) -> raises_only P (mapM f l).
Proof.
  intros Hf e He. apply mapM_Raise in He as (a & _ & Ha). now apply (Hf a).
Qed.

(** With a positive batch size nothing in tokenize_dataset raises the data
    loader's refusal of the batch size. *)
Lemma tokenize_dataset_positive_batch_size
    (dataset : Dataset) (text_col_names : list string) (tokenizer : Tokenizer)
    (batch_size : Z) (max_seq_length : option Z) (remove_old_cols : bool) :
  (0 < batch_size)%Z ->
  raises_only not_batch_size_error
    (fst (tokenize_dataset dataset text_col_names tokenizer batch_size
                           max_seq_length remove_old_cols)).
Proof.
  intros Hsize.
  assert (Hcall : forall tok args kw,
            raises_only not_batch_size_error (tokenizer_call tok args kw)).
  { intros tok args kw e. unfold tokenizer_call.
    destruct (encode tok _ args kw) as [[msg|msg]|enc]; intros [= <-] z; discriminate. }
  unfold tokenize_dataset.
  destruct (tokenizer_call tokenizer [OneText "Dummy text"] no_kwargs) as [dummy|e0] eqn:Hd.
  - destruct (names_clash text_col_names (keys dummy)); cbn [fst].
    + intros e [= <-] z. discriminate.
    + apply bind_raises_only.
      * unfold Dataset_map. apply bind_raises_only.
        -- apply mapM_raises_only. intros batch. apply bind_raises_only.
           ++ unfold tok_func. apply bind_raises_only.
              ** apply mapM_raises_only. intros name e. unfold column_values.
                 destruct (mem name (features dataset)); [discriminate|].
                 intros [= <-] z. discriminate.
              ** intros cols. apply Hcall.
           ++ intros enc e. unfold merge_batch.
              destruct (negb (forallb _ enc)); [intros [= <-] z; discriminate|].
              destruct (negb (is_nil _) && _); [intros [= <-] z; discriminate|discriminate].
        -- intros written e. destruct (forallb _ _); [discriminate|].
           intros [= <-] z. discriminate.
      * intros mapped. apply bind_raises_only.
        -- intros e. unfold Dataset_set_format.
           destruct (forallb _ (keys dummy)); [discriminate|]. intros [= <-] z. discriminate.
        -- intros formatted e. unfold DataLoader_new.
           destruct (batch_size <=? 0)%Z eqn:E; [apply Z.leb_le in E; lia|discriminate].
  - cbn [fst]. intros e [= <-].
    exact (Hcall tokenizer [OneText "Dummy text"] no_kwargs e0 Hd).
Qed.

(** X19: for the namespace that get_qa_args returns, the construction of
    the data loader in main cannot fail on the batch size: whatever the
    dataset and the tokenizer, tokenize_dataset does not raise the data
    loader's ValueError for a batch size that is not positive. *)
Theorem main_data_loader_batch_size_accepted
    (dataset_arg : string) (text_col_args : list string)
    (max_seq_length_arg batch_size_arg : option Z) (args : Namespace)
    (dataset : Dataset) (tokenizer : Tokenizer) :
  get_qa_args dataset_arg text_col_args max_seq_length_arg batch_size_arg = Ok args ->
  forall e batch_size,
    fst (main_data_loader args dataset tokenizer) = Raise e ->
    e <> ValueError (BatchSizeNotPositive batch_size).
Proof.
  intros Hargs e batch_size He.
  destruct (get_qa_args_Ok _ _ _ _ _ Hargs) as (_ & _ & _ & _ & _ & Hpos).
  exact (tokenize_dataset_positive_batch_size _ _ _ _ _ _ Hpos e He batch_size).
Qed.

Lemma main_data_loader_batch_size_accepted_witness :
  exists args,
    get_qa_args "data.jsonl" ["question"; "title"] None (Some 2%Z) = Ok args /\
    forall e batch_size,
      fst (main_data_loader args three_examples BartLike.tokenizer) = Raise e ->
      e <> ValueError (BatchSizeNotPositive batch_size).
Proof.
  eexists. split; [reflexivity|].
  exact (main_data_loader_batch_size_accepted
           "data.jsonl" ["question"; "title"] None (Some 2%Z) _
           three_examples BartLike.tokenizer eq_refl).
Defined.

(** ** [get_predictions]: the tuple of an example *)

Lemma row_list_ext {A : Type} (t : Tensor A) (k : nat) (f : nat -> A) :
  (forall i, i < ncols t -> entry t k i = f i) ->
  row_list t k = map f (seq 0 (ncols t)).
Proof.
  intros Hext. unfold row_list. apply map_ext_in. intros i Hi.
  apply in_seq in Hi. apply Hext. lia.
Qed.

(** X21: in a mini-batch whose scores have the shape of the input ids,
    tuple k of the loop body belongs to example k: it is the cleaned parts
    of the decoded row k of the input ids, followed by the cleaned parts of
    the decoded row k in which every id outside the predicted span is
    replaced by the pad id. *)
Theorem predict_batch_tuple_of_example {F : Type} `{Score F}
    (model : Model F) (tokenizer : Tokenizer) (input_ids_name : string)
    (pad_id : Z) (pattern : Pattern) (batch : Batch)
    (input_ids : Tensor Z) (start_logits end_logits : Tensor F)
    (tuples : list (list string)) (k : nat) :
  model batch = Ok (start_logits, end_logits) ->
  batch_getitem batch input_ids_name = Ok input_ids ->
  same_shape input_ids start_logits end_logits ->
  predict_batch model tokenizer input_ids_name pad_id pattern batch = Ok tuples ->
  k < nrows input_ids ->
  let sep := sep_token tokenizer in
  let answer_row :=
    map (fun i => if in_span start_logits end_logits k i
                  then entry input_ids k i else pad_id)
        (seq 0 (ncols input_ids)) in
  nth k tuples [] =
    clean_seq pattern (split_scan sep 0 (decode tokenizer (row_list input_ids k))) ++
    clean_seq pattern (split_scan sep 0 (decode tokenizer answer_row)).
Proof.
  intros Hmodel Hids Hshape Hrun Hk. cbv zeta. unfold predict_batch in Hrun.
  rewrite Hmodel in Hrun. cbn [bind] in Hrun. rewrite Hids in Hrun. cbn [bind] in Hrun.
  apply bind_Ok in Hrun as (answers & Hanswers & Hrun).
  apply bind_Ok in Hrun as (raw_inputs & Hinputs & Hrun).
  apply bind_Ok in Hrun as (raw_answers & Hraw & Hrun).
  injection Hrun as <-.
  pose proof (extract_answer_Ok_masked _ _ _ _ _ Hshape Hanswers) as Hmasked.
  destruct Hmasked as [Hsh Hentries]. unfold shape in Hsh. injection Hsh as Hrows Hcols.
  assert (Hka : k < nrows answers) by lia.
  destruct (decode_bart_input_nth _ _ _ k Hinputs Hk) as [_ Hin].
  destruct (decode_bart_input_nth _ _ _ k Hraw Hka) as [_ Han].
  pose proof (decode_bart_input_length _ _ _ Hinputs ltac:(lia)) as Hli.
  pose proof (decode_bart_input_length _ _ _ Hraw ltac:(lia)) as Hla.
  unfold clean_decoded_batch.
  match goal with |- nth k (map ?g ?l) [] = _ => set (join := g); set (pairs := l) end.
  rewrite (nth_indep (map join pairs) [] (join ([], [])))
    by (unfold pairs; rewrite length_map, length_combine, !length_map; lia).
  rewrite map_nth. unfold pairs.
  rewrite combine_nth by (rewrite !length_map; lia).
  unfold join.
  rewrite (nth_indep (map (clean_seq pattern) raw_inputs) [] (clean_seq pattern []))
    by (rewrite length_map; lia).
  rewrite (nth_indep (map (clean_seq pattern) raw_answers) [] (clean_seq pattern []))
    by (rewrite length_map; lia).
  rewrite !map_nth, Hin, Han. do 4 f_equal.
  rewrite <- Hcols. apply row_list_ext. intros i Hi. apply Hentries; lia.
Qed.

Lemma predict_batch_tuple_of_example_witness :
  exists tuples,
    predict_batch (BartLike.pointing_model 4 4) BartLike.tokenizer "input_ids" 1%Z
                  (cleaning_pattern BartLike.tokenizer) one_batch = Ok tuples /\
    nth 0 tuples [] =
      clean_seq (cleaning_pattern BartLike.tokenizer)
        (split_scan "</s>" 0 (BartLike.decode_ids (row_list one_batch_ids 0))) ++
      clean_seq (cleaning_pattern BartLike.tokenizer)
        (split_scan "</s>" 0
           (BartLike.decode_ids
              (map (fun i => if in_span (BartLike.peak 1 6 4) (BartLike.peak 1 6 4) 0 i
                             then entry one_batch_ids 0 i else 1%Z)
                   (seq 0 (ncols one_batch_ids))))).
Proof.
  destruct (predict_batch (BartLike.pointing_model 4 4) BartLike.tokenizer "input_ids" 1%Z
              (cleaning_pattern BartLike.tokenizer) one_batch) as [tuples|e] eqn:E;
    [|vm_compute in E; discriminate].
  exists tuples. split; [reflexivity|].
  apply (@predict_batch_tuple_of_example Z _ (BartLike.pointing_model 4 4)
           BartLike.tokenizer "input_ids" 1%Z (cleaning_pattern BartLike.tokenizer)
           one_batch one_batch_ids (BartLike.peak 1 6 4) (BartLike.peak 1 6 4) tuples 0).
  - reflexivity.
  - reflexivity.
  - split; reflexivity.
  - exact E.
  - simpl. lia.
Defined.
